(** * Bot Party (Spyfall engine): a shallow embedding of the game core

    Strings are JavaScript strings restricted to ASCII characters, seen as
    [list ascii] where characters are inspected.  Randomness
    ([Math.floor(Math.random() * n)]) is an explicit draw function, and the
    player controllers (LLM or human) are explicit oracles. *)

From Stdlib Require Import List String Ascii Arith Lia Bool ZArith Permutation Sorted.
Import ListNotations.

(* ------------------------------------------------------------------ *)
(** ** Characters and strings (JavaScript [trim], [toLowerCase], [includes]) *)

Module Str.

(** [\s] of a JS regular expression and the characters removed by
    [String.prototype.trim], on ASCII: space, tab, LF, VT, FF, CR. *)
Definition is_ws (c : ascii) : bool :=
  let n := nat_of_ascii c in (n =? 32) || ((9 <=? n) && (n <=? 13)).

(** Line terminators, the characters [.] of a regex does not match. *)
Definition is_line_terminator (c : ascii) : bool :=
  let n := nat_of_ascii c in (n =? 10) || (n =? 13).

Definition to_lower (c : ascii) : ascii :=
  let n := nat_of_ascii c in
  if (65 <=? n) && (n <=? 90) then ascii_of_nat (n + 32) else c.

Fixpoint skip_ws (l : list ascii) : list ascii :=
  match l with
  | [] => []
  | c :: t => if is_ws c then skip_ws t else l
  end.

Definition trim_l (l : list ascii) : list ascii := rev (skip_ws (rev (skip_ws l))).

Definition trim (s : string) : string :=
  string_of_list_ascii (trim_l (list_ascii_of_string s)).

Definition toLowerCase (s : string) : string :=
  string_of_list_ascii (map to_lower (list_ascii_of_string s)).

(** [hay.includes(needle)] *)
Definition includes (hay needle : string) : bool :=
  match index 0 needle hay with Some _ => true | None => false end.

End Str.

(** src/utils/normalizeName: [s.trim().toLowerCase()] *)
Definition normalizeName (s : string) : string := Str.toLowerCase (Str.trim s).

(* ------------------------------------------------------------------ *)
(** ** Data model (src/types.ts) *)

Abbreviation PlayerId := string (only parsing).

Inductive PlayerSecret :=
| SPY
| CIVILIAN (location : string) (role : string).

Record Player := mkPlayer {
  id : PlayerId;
  name : string;
  isHuman : bool;
  secret : PlayerSecret
}.

Definition isSpy (p : Player) : bool :=
  match secret p with SPY => true | CIVILIAN _ _ => false end.

Record Turn := mkTurn {
  askerId : PlayerId;
  targetId : PlayerId;
  question : string;
  answer : string
}.

Inductive Winner := WSpy | WCivilians.

(** [EarlyEndResult] *)
Inductive EarlyEndResult :=
| NotEnded
| Ended (winner : Winner) (reason : string).

(* ------------------------------------------------------------------ *)
(** ** src/utils/random.ts *)

(** [draw n] is the value of [Math.floor(Math.random() * n)]. *)
Definition pickRandom {T} (draw : nat -> nat) (arr : list T) : option T :=
  nth_error arr (draw (List.length arr)).

Definition safePickRandom {T} (draw : nat -> nat) (arr : list T) (fallback : option T)
  : option T :=
  match arr with [] => fallback | _ => pickRandom draw arr end.

(** [Array.prototype.sort] with a numeric comparator: a stable sort; an
    element moves behind a later one only when [cmp a b > 0]. *)
Fixpoint insert_by {A} (cmp : A -> A -> Z) (x : A) (l : list A) : list A :=
  match l with
  | [] => [x]
  | y :: t => if (0 <? cmp x y)%Z then y :: insert_by cmp x t else x :: y :: t
  end.

Definition sort_by {A} (cmp : A -> A -> Z) (l : list A) : list A :=
  fold_right (insert_by cmp) [] l.

(* ------------------------------------------------------------------ *)
(** ** src/utils/resolveTargetPlayer.ts *)

(** [p.id === selfId || (lastAskerId && p.id === lastAskerId)]: an empty
    [lastAskerId] is falsy. *)
Definition isIllegal (selfId : PlayerId) (lastAskerId : option PlayerId) (p : Player) : bool :=
  String.eqb (id p) selfId
  || match lastAskerId with
     | Some l => negb (String.eqb l "") && String.eqb (id p) l
     | None => false
     end.

(** [(a, b) => normalizeName(b.name).length - normalizeName(a.name).length] *)
Definition nameLenCmp (a b : Player) : Z :=
  (Z.of_nat (String.length (normalizeName (name b)))
   - Z.of_nat (String.length (normalizeName (name a))))%Z.

(** [None] is [undefined] (only reachable on an empty list or an
    out-of-range draw). *)
Definition resolveTargetPlayer (draw : nat -> nat) (players : list Player)
    (targetName : string) (selfId : PlayerId) (lastAskerId : option PlayerId)
  : option Player :=
  let target := normalizeName targetName in
  let legal p := negb (isIllegal selfId lastAskerId p) in
  match find (fun p => String.eqb (normalizeName (name p)) target && legal p) players with
  | Some exact => Some exact
  | None =>
      let candidates :=
        filter (fun p =>
                  let nm := normalizeName (name p) in
                  negb (String.eqb nm "") && negb (String.eqb target "")
                  && (Str.includes target nm || Str.includes nm target))
               (filter legal players) in
      match candidates with
      | [c] => Some c
      | _ :: _ :: _ => hd_error (sort_by nameLenCmp candidates)
      | [] =>
          match filter legal players with
          | [] => safePickRandom draw (filter (fun p => negb (String.eqb (id p) selfId)) players)
                                 (nth_error players 0)
          | v :: vs => safePickRandom draw (v :: vs) (Some v)
          end
      end
  end.

(** The filters of [resolveTargetPlayer], named for the proofs. *)
Definition legalB (selfId : PlayerId) (lastAskerId : option PlayerId) (p : Player) : bool :=
  negb (isIllegal selfId lastAskerId p).

Definition notSelfB (selfId : PlayerId) (p : Player) : bool := negb (String.eqb (id p) selfId).

(* ------------------------------------------------------------------ *)
(** ** parseField (the [RegExp] version, src/prompts: [/KEY:\s*( .* )/i]) *)

Module Regex.

(** Case-insensitive character comparison of the [i] flag (ASCII). *)
Definition ci_eq (a b : ascii) : bool := Ascii.eqb (Str.to_lower a) (Str.to_lower b).

(** Matches the literal [pat] case-insensitively at the head of [l];
    returns the input following the match. *)
Fixpoint match_at (pat l : list ascii) : option (list ascii) :=
  match pat with
  | [] => Some l
  | p :: ps =>
      match l with
      | [] => None
      | c :: cs => if ci_eq p c then match_at ps cs else None
      end
  end.

(** An unanchored regex tries every start position from left to right;
    the first position where [KEY:] matches wins, because [\s*( .* )] always
    matches there. *)
Fixpoint search (pat l : list ascii) : option (list ascii) :=
  match match_at pat l with
  | Some r => Some r
  | None => match l with [] => None | _ :: t => search pat t end
  end.

(** [( .* )], greedy: every character up to the first line terminator. *)
Fixpoint take_line (l : list ascii) : list ascii :=
  match l with
  | [] => []
  | c :: t => if Str.is_line_terminator c then [] else c :: take_line t
  end.

End Regex.

(** [const match = text.match(new RegExp(`${key}:\\s*( .* )`, "i"));
     return match ? match[1].trim() : "";]  The key is taken literally,
    which is what the source does for a key of ASCII letters, the only keys
    its callers pass ("VOTE", "GUESS", ...); a key holding regex syntax
    ([\d], [(], ...) is read as a pattern by the source and is outside this
    model, so every statement below about [parseField] assumes a letter key. *)
Definition parseField (key text : string) : string :=
  match Regex.search (list_ascii_of_string key ++ [":"%char]) (list_ascii_of_string text) with
  | None => ""
  | Some rest => Str.trim (string_of_list_ascii (Regex.take_line (Str.skip_ws rest)))
  end.

(** For statements about [parseField]: ASCII letters, case-insensitive
    equality of two character lists, and the conversion of every CR LF
    pair into LF. *)
Definition is_letter (c : ascii) : bool :=
  let n := nat_of_ascii c in ((65 <=? n) && (n <=? 90)) || ((97 <=? n) && (n <=? 122)).

Fixpoint ci_same (p m : list ascii) : bool :=
  match p, m with
  | [], [] => true
  | a :: p', b :: m' => Regex.ci_eq a b && ci_same p' m'
  | _, _ => false
  end.

Definition CRc : ascii := ascii_of_nat 13.
Definition LFc : ascii := ascii_of_nat 10.

Fixpoint crlf (l : list ascii) : list ascii :=
  match l with
  | [] => []
  | c :: t =>
      if Ascii.eqb c CRc then
        match t with
        | d :: t' => if Ascii.eqb d LFc then LFc :: crlf t' else c :: crlf t
        | [] => [c]
        end
      else c :: crlf t
  end.

Definition crlfS (s : string) : string := string_of_list_ascii (crlf (list_ascii_of_string s)).

(* ------------------------------------------------------------------ *)
(** ** Voting, verdict, spy guesses and scoring (src/game.ts) *)

Record TallyResult := mkTally {
  accusedName : option string;
  isTie : bool;
  tallySpy : option Player
}.

(** [(a, b) => b[1] - a[1]] *)
Definition voteCmp (a b : string * nat) : Z := (Z.of_nat (snd b) - Z.of_nat (snd a))%Z.

(** [tallyVotes]; [votes] are the entries of the [Map] in insertion order.
    [None] is the [TypeError] of [sortedVotes[0][0]] on an empty map. *)
Definition tallyVotes (votes : list (string * nat)) (players : list Player)
  : option TallyResult :=
  let sortedVotes := sort_by voteCmp votes in
  let tie := (1 <? List.length sortedVotes)
             && match sortedVotes with a :: b :: _ => Nat.eqb (snd a) (snd b) | _ => false end in
  let spy := find isSpy players in
  if tie then Some (mkTally None true spy)
  else match sortedVotes with
       | [] => None
       | a :: _ => Some (mkTally (Some (fst a)) false spy)
       end.

(** [guessLocation(...) ?? ""] *)
Definition voteGe (a b : string * nat) : Prop := snd b <= snd a.

Definition guessText (guessRaw : option string) : string :=
  match guessRaw with Some g => g | None => "" end.

(** [handleEarlySpyGuess]; [guessRaw] is what the spy's controller returned. *)
Definition handleEarlySpyGuess (guessRaw : option string) (location : string) : EarlyEndResult :=
  let guess := parseField "GUESS" (guessText guessRaw) in
  if String.eqb (normalizeName guess) (normalizeName location)
  then Ended WSpy "Spy correctly guessed the location!"
  else Ended WCivilians "Spy guessed wrong!".

Definition sameName (accusedName : option string) (spy : Player) : bool :=
  match accusedName with Some n => String.eqb n (name spy) | None => false end.

(** [runSpyGuessIfEligible] *)
Definition runSpyGuessIfEligible (accusedName : option string) (tie : bool) (spy : Player)
    (location : string) (guessRaw : option string) : bool :=
  if negb (sameName accusedName spy) && negb tie then false
  else
    let guess := parseField "GUESS" (guessText guessRaw) in
    String.eqb (normalizeName guess) (normalizeName location).

(** The winner announced by [printFinalScore]. *)
Definition finalWinner (accusedName : option string) (spy : Player) (spyGuessedRight : bool)
  : Winner :=
  if spyGuessedRight then WSpy
  else if sameName accusedName spy then WCivilians
  else WSpy.

(* ------------------------------------------------------------------ *)
(** ** src/agent.ts *)

Inductive AgentMode := memory_mode | stateful_mode.

Inductive MsgRole := RSystem | RUser | RAssistant.

Record Msg := mkMsg { role : MsgRole; content : string }.

(** A settled promise: fulfilled with a value, or rejected with the
    message of the thrown error. *)
Inductive Settled (A : Type) :=
| Resolved (v : A)
| Rejected (err : string).
Arguments Resolved {A} v.
Arguments Rejected {A} err.

(** The provider capability: [chat(history)], [chatStateful(text)],
    [init(systemPrompt)], each of which may reject. *)
Record AIProvider := mkProvider {
  supportsStateful : bool;
  chat : list Msg -> Settled string;
  chatStateful : string -> Settled string;
  init : string -> Settled unit
}.

Record Agent := mkAgent {
  agentMode : AgentMode;
  agentMemory : list Msg;
  agentReady : Settled unit
}.

(** The constructor: unsupported stateful mode falls back to memory mode. *)
Definition newAgent (prov : AIProvider) (systemPrompt : string) (requested : AgentMode) : Agent :=
  let mode := match requested with
              | stateful_mode => if supportsStateful prov then stateful_mode else memory_mode
              | memory_mode => memory_mode
              end in
  match mode with
  | memory_mode => mkAgent memory_mode [mkMsg RSystem systemPrompt] (Resolved tt)
  | stateful_mode => mkAgent stateful_mode [] (init prov systemPrompt)
  end.

(** [sayWithMemory]: no [try]; a rejected [provider.chat] rejects [say]. *)
Definition sayWithMemory (prov : AIProvider) (a : Agent) (userContent : string)
  : Settled string * Agent :=
  let mem := agentMemory a ++ [mkMsg RUser userContent] in
  match chat prov mem with
  | Resolved text => (Resolved text, mkAgent (agentMode a) (mem ++ [mkMsg RAssistant text]) (agentReady a))
  | Rejected e => (Rejected e, mkAgent (agentMode a) mem (agentReady a))
  end.

(** [sayStateful]: [await this.ready] outside the [try]; the provider call
    inside it, its failure turned into ["Error: " + message]. *)
Definition sayStateful (prov : AIProvider) (a : Agent) (userContent : string)
  : Settled string * Agent :=
  match agentReady a with
  | Rejected e => (Rejected e, a)
  | Resolved _ =>
      match chatStateful prov userContent with
      | Resolved text => (Resolved text, a)
      | Rejected e => (Resolved ("Error: " ++ e)%string, a)
      end
  end.

Definition say (prov : AIProvider) (a : Agent) (userContent : string) : Settled string * Agent :=
  match agentMode a with
  | memory_mode => sayWithMemory prov a userContent
  | stateful_mode => sayStateful prov a userContent
  end.

(* ------------------------------------------------------------------ *)
(** ** Setup (setupGame in src/phases/setup, also SpyfallGame.setupGame) *)

Inductive ProviderType := openai | anthropic | google.

Definition ProviderType_eqb (a b : ProviderType) : bool :=
  match a, b with
  | openai, openai | anthropic, anthropic | google, google => true
  | _, _ => false
  end.

Inductive PlayerSlotConfig :=
| SlotHuman
| SlotAI (type : ProviderType) (mode : AgentMode).

Record LocationPack := mkPack { location : string; roles : list string }.

Definition getProviderDisplayName (t : ProviderType) : string :=
  match t with openai => "GPT" | anthropic => "Claude" | google => "Gemini" end.

Fixpoint digits_aux (fuel n : nat) (acc : string) : string :=
  match fuel with
  | 0 => acc
  | S f =>
      let acc' := String (ascii_of_nat (48 + n mod 10)) acc in
      if n <? 10 then acc' else digits_aux f (n / 10) acc'
  end.

(** [`${n}`] for a natural number *)
Definition nat_to_string (n : nat) : string := digits_aux (S n) n "".

(** [a[i], a[j]] = [a[j], a[i]] *)
Fixpoint set_nth {A} (l : list A) (i : nat) (v : A) : list A :=
  match l, i with
  | [], _ => []
  | _ :: t, 0 => v :: t
  | x :: t, S i' => x :: set_nth t i' v
  end.

Definition swap {A} (i j : nat) (a : list A) : list A :=
  match nth_error a i, nth_error a j with
  | Some x, Some y => set_nth (set_nth a i y) j x
  | _, _ => a
  end.

(** The Fisher-Yates loop [for (i = a.length - 1; i > 0; i--)]; [r i] is
    [Math.floor(Math.random() * (i + 1))]. *)
Fixpoint shuffle_loop {A} (r : nat -> nat) (i : nat) (a : list A) : list A :=
  match i with
  | 0 => a
  | S i' => shuffle_loop r i' (swap (S i') (r (S i')) a)
  end.

Definition shuffle {A} (r : nat -> nat) (arr : list A) : list A :=
  shuffle_loop r (List.length arr - 1) arr.

(** [arr.slice(0, n - 1)]: for [n = 0] the end index [-1] drops the last element. *)
Definition slice_roles (l : list string) (numPlayers : nat) : list string :=
  match numPlayers with 0 => removelast l | S k => firstn k l end.

(** [roles.pop()] *)
Definition pop (l : list string) : option string * list string :=
  match rev l with [] => (None, []) | x :: t => (Some x, rev t) end.

(** [roles.pop() || "Visitor"] *)
Definition roleOrVisitor (r : option string) : string :=
  match r with Some x => if String.eqb x "" then "Visitor" else x | None => "Visitor" end.

Definition countProvider (slots : list PlayerSlotConfig) (t : ProviderType) : nat :=
  List.length (filter (fun s => match s with SlotAI t' _ => ProviderType_eqb t t' | SlotHuman => false end) slots).

(** The player-building loop, with [providerInstanceNum] as a function and
    the [roles] array as a stack. *)
Fixpoint buildPlayers (allSlots : list PlayerSlotConfig) (pack : LocationPack) (spyIndex i : nat)
    (slots : list PlayerSlotConfig) (rolesLeft : list string) (inst : ProviderType -> nat)
  : list Player :=
  match slots with
  | [] => []
  | slot :: rest =>
      let '(nm, inst') :=
        match slot with
        | SlotHuman => ("You"%string, inst)
        | SlotAI t _ =>
            let k := S (inst t) in
            (if 1 <? countProvider allSlots t
             then (getProviderDisplayName t ++ "-" ++ nat_to_string k)%string
             else getProviderDisplayName t,
             fun t' => if ProviderType_eqb t t' then k else inst t')
        end in
      let human := match slot with SlotHuman => true | SlotAI _ _ => false end in
      let '(sec, rolesLeft') :=
        if Nat.eqb i spyIndex then (SPY, rolesLeft)
        else let '(r, rl) := pop rolesLeft in (CIVILIAN (location pack) (roleOrVisitor r), rl) in
      mkPlayer nm nm human sec :: buildPlayers allSlots pack spyIndex (S i) rest rolesLeft' inst'
  end.

(** The players of [setupGame] for a chosen pack; [spyIndex] is
    [Math.floor(Math.random() * numPlayers)], [r] the shuffle's draws. *)
Definition setupPlayers (slots : list PlayerSlotConfig) (pack : LocationPack)
    (spyIndex : nat) (r : nat -> nat) : list Player :=
  let numPlayers := List.length slots in
  let rolesArr := slice_roles (shuffle r (roles pack)) numPlayers in
  buildPlayers slots pack spyIndex 0 slots rolesArr (fun _ => 0).

Definition nonspy (s i m : nat) : nat := List.length (filter (fun j => negb (j =? s)) (seq i m)).

(** The civilian roles of a player list, in order (for stating results). *)
Definition civRoles (ps : list Player) : list string :=
  flat_map (fun p => match secret p with CIVILIAN _ r => [r] | SPY => [] end) ps.

(** [k] successive [roles.pop()] calls on [l]. *)
Fixpoint pops (k : nat) (l : list string) : list (option string) :=
  match k with
  | 0 => []
  | S k' => fst (pop l) :: pops k' (snd (pop l))
  end.

(* ------------------------------------------------------------------ *)
(** ** The question-round loop (src/phases/questionRounds.ts) and the
    accusation procedure (SpyfallGame.handleAccusation) *)

Inductive TurnAction := AQuestion | AGuess | AVote.

Definition isVote (a : TurnAction) : bool := match a with AVote => true | _ => false end.

(** The loop's local variables.  [offers] is a ghost record of every
    [chooseAction] call: the asker, the [canAccuse] flag passed, and the
    action chosen; the code keeps no such list. *)
Record RState := mkRState {
  turns : list Turn;
  answered : list PlayerId;
  usedVote : list PlayerId;
  announced : bool;
  roundCount : nat;
  currentAsker : option Player;
  lastAsker : option Player;
  offers : list (PlayerId * bool * TurnAction)
}.

(** The controllers (AI or human) and [Math.random], as oracles that may
    depend on everything the game has done so far. *)
Record Controllers := mkControllers {
  draw : RState -> nat -> nat;
  chooseAction : RState -> Player -> bool -> TurnAction;
  ask : RState -> Player -> string * string;
  answerCtl : RState -> Player -> string;
  accuse : RState -> Player -> string;
  voteOnAccusation : RState -> Player -> bool;
  guessLocation : RState -> Player -> bool -> option string
}.

Definition mem (x : PlayerId) (l : list PlayerId) : bool := existsb (String.eqb x) l.

(** [Set.prototype.add] on a set kept in insertion order *)
Definition setAdd (x : PlayerId) (l : list PlayerId) : list PlayerId :=
  if mem x l then l else l ++ [x].

Definition set_roundCount (st : RState) (n : nat) : RState :=
  mkRState (turns st) (answered st) (usedVote st) (announced st) n
           (currentAsker st) (lastAsker st) (offers st).

Definition set_offers (st : RState) (o : list (PlayerId * bool * TurnAction)) : RState :=
  mkRState (turns st) (answered st) (usedVote st) (announced st) (roundCount st)
           (currentAsker st) (lastAsker st) o.

Definition set_usedVote (st : RState) (u : list PlayerId) : RState :=
  mkRState (turns st) (answered st) u (announced st) (roundCount st)
           (currentAsker st) (lastAsker st) (offers st).

Definition set_askers (st : RState) (cur last : option Player) : RState :=
  mkRState (turns st) (answered st) (usedVote st) (announced st) (roundCount st)
           cur last (offers st).

(** [handleAccusation]; [None] is the [TypeError] of [spy.name] when the
    list holds no spy. *)
Definition handleAccusation (ctl : Controllers) (st : RState) (accuser : Player)
    (players : list Player) (pack : LocationPack) : option EarlyEndResult :=
  let spy := find isSpy players in
  let accusedName := accuse ctl st accuser in
  match find (fun p => String.eqb (normalizeName (name p)) (normalizeName accusedName)) players with
  | None => Some NotEnded
  | Some accused =>
      if String.eqb (id accused) (id accuser) then Some NotEnded
      else
        let voters := filter (fun p => negb (String.eqb (id p) (id accuser))
                                       && negb (String.eqb (id p) (id accused))) players in
        (* yesVotes = 1 (the accuser) + the voters answering "yes";
           noVotes is only logged *)
        let yesVotes := 1 + List.length (filter (voteOnAccusation ctl st) voters) in
        let majority := List.length players / 2 + 1 in
        if majority <=? yesVotes then
          match spy with
          | None => None
          | Some spy =>
              if String.eqb (id accused) (id spy) then
                let guess := parseField "GUESS" (guessText (guessLocation ctl st spy true)) in
                if String.eqb (normalizeName guess) (normalizeName (location pack))
                then Some (Ended WSpy "Spy was caught but correctly guessed the location!")
                else Some (Ended WCivilians "Spy was caught and couldn't guess the location!")
              else Some (Ended WSpy ("Civilians convicted " ++ name accused
                                     ++ " but the spy was " ++ name spy ++ "!"))
          end
        else Some NotEnded
  end.

(** One pass of the [while] body. *)
Inductive Step :=
| Continue (st : RState)
| Return (ts : list Turn) (earlyEnd : EarlyEndResult) (st : RState)
| Throw (st : RState).

(** The default action: ask a question, get the answer, record the Turn.
    Reactions only log, and are left out. *)
Definition questionStep (ctl : Controllers) (players : list Player) (st : RState) (a : Player)
  : Step :=
  let '(targetName, q) := ask ctl st a in
  match resolveTargetPlayer (draw ctl st) players targetName (id a) (option_map id (lastAsker st)) with
  | None => Throw st
  | Some target =>
      let rawAnswer := answerCtl ctl st target in
      let pa := parseField "ANSWER" rawAnswer in
      let publicAnswer := if String.eqb pa "" then rawAnswer else pa in
      let answered' := setAdd (id target) (answered st) in
      let announced' := announced st || (List.length players <=? List.length answered') in
      Continue (mkRState (turns st ++ [mkTurn (name a) (name target) q publicAnswer])
                         answered' (usedVote st) announced' (roundCount st)
                         (Some target) (Some a) (offers st))
  end.

Definition iter (ctl : Controllers) (players : list Player) (pack : LocationPack)
    (allowEarlyVote : bool) (st : RState) : Step :=
  let st1 := set_roundCount st (S (roundCount st)) in
  match currentAsker st1 with
  | None => Throw st1
  | Some a =>
      if List.length players <=? List.length (answered st1) then
        let canAccuse := allowEarlyVote && negb (mem (id a) (usedVote st1)) in
        let act := chooseAction ctl st1 a canAccuse in
        let st2 := set_offers st1 (offers st1 ++ [(id a, canAccuse, act)]) in
        let guessed :=
          match act with
          | AGuess => if isSpy a
                      then Some (handleEarlySpyGuess (guessLocation ctl st2 a false) (location pack))
                      else None
          | _ => None
          end in
        match guessed with
        | Some (Ended w r) => Return (turns st2) (Ended w r) st2
        | _ =>
            if isVote act && canAccuse then
              let st3 := set_usedVote st2 (setAdd (id a) (usedVote st2)) in
              match handleAccusation ctl st3 a players pack with
              | None => Throw st3
              | Some (Ended w r) => Return (turns st3) (Ended w r) st3
              | Some NotEnded =>
                  Continue (set_askers st3
                              (pickRandom (draw ctl st3)
                                          (filter (fun p => negb (String.eqb (id p) (id a))) players))
                              (Some a))
              end
            else questionStep ctl players st2 a
        end
      else questionStep ctl players st1 a
  end.

Inductive Final :=
| Done (ts : list Turn) (earlyEnd : EarlyEndResult) (st : RState)
| Crash (st : RState).

(** [while (roundCount < numRounds)]; every pass increments [roundCount],
    so [numRounds] passes of fuel suffice. *)
Fixpoint loop (ctl : Controllers) (players : list Player) (pack : LocationPack)
    (allowEarlyVote : bool) (numRounds fuel : nat) (st : RState) : Final :=
  match fuel with
  | 0 => Done (turns st) NotEnded st
  | S f =>
      if roundCount st <? numRounds then
        match iter ctl players pack allowEarlyVote st with
        | Continue st' => loop ctl players pack allowEarlyVote numRounds f st'
        | Return ts e st' => Done ts e st'
        | Throw st' => Crash st'
        end
      else Done (turns st) NotEnded st
  end.

Definition initState : RState := mkRState [] [] [] false 0 None None [].

Definition runQuestionRounds (ctl : Controllers) (numRounds : nat) (players : list Player)
    (pack : LocationPack) (allowEarlyVote : bool) : Final :=
  match pickRandom (draw ctl initState) players with
  | None => Crash initState
  | Some first => loop ctl players pack allowEarlyVote numRounds numRounds
                       (set_askers initState (Some first) None)
  end.

(** The invariant over the log of offers: an offered-and-taken accusation
    put its asker into [usedVote], and no later offer to that asker had
    [canAccuse]; everyone in [usedVote] got there by such an accusation. *)
Definition accuse_inv (st : RState) : Prop :=
  (forall pre x post, offers st = pre ++ (x, true, AVote) :: post ->
     mem x (usedVote st) = true /\ (forall c act, In (x, c, act) post -> c = false)) /\
  (forall x, mem x (usedVote st) = true ->
     exists pre post, offers st = pre ++ (x, true, AVote) :: post).

(* ------------------------------------------------------------------ *)
(** ** The legacy configuration (legacyConfigToSlots in src/phases/setup) *)

(** The fields of [GameConfig] read by [legacyConfigToSlots]; [None] is an
    absent ([undefined]) field. *)
Record GameConfig := mkConfig {
  cfgNumPlayers : option nat;
  cfgIncludeHuman : option bool;
  cfgAgentMode : option AgentMode;
  cfgProviders : option (list ProviderType)
}.

(** src/providers: [DEFAULT_PROVIDER_ROTATION] *)
Definition DEFAULT_PROVIDER_ROTATION : list ProviderType := [openai; anthropic; google].

(** [providers[aiIndex % providers.length]]; [None] is [undefined], the
    value for an empty [providers] array ([x % 0] is [NaN]). *)
Definition providerAt (providers : list ProviderType) (aiIndex : nat) : option ProviderType :=
  match providers with
  | [] => None
  | _ => nth_error providers (aiIndex mod List.length providers)
  end.

(** The [for (let i = 0; i < numPlayers; i++)] loop, [fuel] iterations
    left.  A pushed slot is [Some] config, or [None] for the object
    [{ type: undefined, mode }]. *)
Fixpoint legacy_loop (includeHuman : bool) (agentMode : AgentMode)
    (providers : list ProviderType) (i aiIndex fuel : nat) : list (option PlayerSlotConfig) :=
  match fuel with
  | 0 => []
  | S f =>
      if includeHuman && Nat.eqb i 0
      then Some SlotHuman :: legacy_loop includeHuman agentMode providers (S i) aiIndex f
      else option_map (fun t => SlotAI t agentMode) (providerAt providers aiIndex)
           :: legacy_loop includeHuman agentMode providers (S i) (S aiIndex) f
  end.

Definition legacyConfigToSlots (config : GameConfig) : list (option PlayerSlotConfig) :=
  let numPlayers := match cfgNumPlayers config with Some n => n | None => 3 end in
  let includeHuman := match cfgIncludeHuman config with Some b => b | None => false end in
  let agentMode := match cfgAgentMode config with Some m => m | None => memory_mode end in
  let providers := match cfgProviders config with Some ps => ps | None => DEFAULT_PROVIDER_ROTATION end in
  legacy_loop includeHuman agentMode providers 0 0 numPlayers.

(* ------------------------------------------------------------------ *)
(** ** The voting phase (SpyfallGame.runVotingPhase) *)

(** [votes.set(k, v)] on a [Map] kept as its entries in insertion order:
    an existing key keeps its place. *)
Fixpoint mapSet (k : string) (v : nat) (m : list (string * nat)) : list (string * nat) :=
  match m with
  | [] => [(k, v)]
  | (k', v') :: t => if String.eqb k' k then (k', v) :: t else (k', v') :: mapSet k v t
  end.

(** [votes.get(k) || 0] *)
Definition mapGet0 (k : string) (m : list (string * nat)) : nat :=
  match find (fun e => String.eqb (fst e) k) m with Some (_, v) => v | None => 0 end.

(** The voters' controllers ([vote], whose raw reply may depend on the
    votes cast so far) and [Math.random]. *)
Record VoteCtl := mkVoteCtl {
  vote : list (string * nat) -> Player -> string;
  vdraw : list (string * nat) -> nat -> nat
}.

(** [finalVote = validCandidate?.name || safePickRandom(candidates, players[0]).name];
    [None] is the [TypeError] of [.name] on [undefined]. *)
Definition finalVote (draw : nat -> nat) (players : list Player) (p : Player) (rawVote : string)
  : option string :=
  let voteName := parseField "VOTE" rawVote in
  let candidates := filter (fun x => negb (String.eqb (id x) (id p))) players in
  let validName :=
    match find (fun x => String.eqb (normalizeName (name x)) (normalizeName voteName)) candidates with
    | Some x => name x
    | None => ""%string
    end in
  if negb (String.eqb validName "") then Some validName
  else option_map name (safePickRandom draw candidates (nth_error players 0)).

(** [for (const p of players)], the remaining voters [ps]. *)
Fixpoint voting_loop (vc : VoteCtl) (players ps : list Player) (votes : list (string * nat))
  : option (list (string * nat)) :=
  match ps with
  | [] => Some votes
  | p :: rest =>
      match finalVote (vdraw vc votes) players p (vote vc votes p) with
      | None => None
      | Some fv => voting_loop vc players rest (mapSet fv (S (mapGet0 fv votes)) votes)
      end
  end.

Definition runVotingPhase (vc : VoteCtl) (players : list Player) : option (list (string * nat)) :=
  voting_loop vc players players [].

(* ------------------------------------------------------------------ *)
(** ** Auxiliary definitions for stating properties *)

(** [good l]: [l] is empty or starts with a non-whitespace character. *)
Definition good (l : list ascii) : Prop :=
  match l with [] => True | c :: _ => Str.is_ws c = false end.

(** The candidates of [resolveTargetPlayer]'s substring stage. *)
Definition substrB (target : string) (p : Player) : bool :=
  let nm := normalizeName (name p) in
  negb (String.eqb nm "") && negb (String.eqb target "")
  && (Str.includes target nm || Str.includes nm target).

(** Whether a slot is the human's. *)
Definition isHumanSlot (s : PlayerSlotConfig) : bool :=
  match s with SlotHuman => true | SlotAI _ _ => false end.

(** The player name that the setup loop gives to slot [s] at position [j]
    of [slots], in closed form. *)
Definition slotName (slots : list PlayerSlotConfig) (j : nat) (s : PlayerSlotConfig) : string :=
  match s with
  | SlotHuman => "You"
  | SlotAI t _ =>
      if 1 <? countProvider slots t
      then (getProviderDisplayName t ++ "-" ++ nat_to_string (S (countProvider (firstn j slots) t)))%string
      else getProviderDisplayName t
  end.

(** Successive [say] calls on one agent, the results in order. *)
Fixpoint sayAll (prov : AIProvider) (a : Agent) (us : list string) : list (Settled string) * Agent :=
  match us with
  | [] => ([], a)
  | u :: r =>
      let '(res, a1) := say prov a u in
      let '(rs, a2) := sayAll prov a1 r in
      (res :: rs, a2)
  end.

Definition isUserMsg (m : Msg) : bool := match role m with RUser => true | _ => false end.

Definition isResolved {A} (r : Settled A) : bool := match r with Resolved _ => true | Rejected _ => false end.

(** A turn asked by one player of [players] to another player of it
    (distinct ids), as recorded by name. *)
Definition turnBetween (players : list Player) (t : Turn) : Prop :=
  exists x y, In x players /\ In y players /\ id x <> id y /\
              askerId t = name x /\ targetId t = name y.

(** What one pass of the loop does to the transcript and the asker. *)
Definition iterPost (players : list Player) (st : RState) (r : Step) : Prop :=
  match r with
  | Continue st' =>
      roundCount st' = S (roundCount st) /\
      exists a, currentAsker st = Some a /\
        ((turns st' = turns st /\ forall x, currentAsker st' = Some x -> In x players) \/
         (exists target q ans d tn l,
            resolveTargetPlayer d players tn (id a) l = Some target /\
            turns st' = turns st ++ [mkTurn (name a) (name target) q ans] /\
            currentAsker st' = Some target))
  | Return ts _ st' => ts = turns st' /\ turns st' = turns st /\ roundCount st' = S (roundCount st)
  | Throw st' => turns st' = turns st /\ roundCount st' = S (roundCount st)
  end.

Section Examples.
Local Open Scope string_scope.

Definition civ (i n : string) : Player := mkPlayer i n false (CIVILIAN "Casino" "Dealer").

Definition LF : string := String (ascii_of_nat 10) "".
Definition CRLF : string := String (ascii_of_nat 13) LF.

Definition casino : LocationPack :=
  mkPack "Casino" ["Dealer"; "Gambler"; "Security Guard"; "Bartender"; "Pit Boss"; "Entertainer"]%string.

Definition simpleCtl : Controllers :=
  mkControllers (fun _ _ => 0) (fun _ _ _ => AQuestion) (fun _ _ => ("Nobody", "Where are we?")%string)
    (fun _ _ => "ANSWER: somewhere"%string) (fun _ _ => ""%string) (fun _ _ => true) (fun _ _ _ => None).

Definition failingProvider (stateful : bool) : AIProvider :=
  mkProvider stateful (fun _ => Rejected "503"%string) (fun _ => Rejected "503"%string) (fun _ => Resolved tt).

Definition failingInitProvider : AIProvider :=
  mkProvider true (fun _ => Resolved "ok"%string) (fun _ => Resolved "ok"%string) (fun _ => Rejected "bad key"%string).

Definition nineGPT : list PlayerSlotConfig := repeat (SlotAI openai memory_mode) 9.

(** Every voter answers "VOTE: Bob"; the draws always pick index 0. *)
Definition bobVoter : VoteCtl := mkVoteCtl (fun _ _ => "VOTE: Bob"%string) (fun _ _ => 0).

Definition abc : list Player := [civ "A" "Alice"; civ "B" "Bob"; civ "C" "Carol"].

Example resolve_ex1 :
  resolveTargetPlayer (fun _ => 0) [civ "GPT-1" "GPT-1"; civ "GPT-11" "GPT-11"; civ "You" "You"]
    "gpt-11 please" "You"%string None = Some (civ "GPT-11" "GPT-11").
Proof. vm_compute. reflexivity. Qed.

Example resolve_ex2 :
  resolveTargetPlayer (fun _ => 0) [civ "A" "Alice"; civ "B" "Bob"] "Alice" "A"%string (Some "B"%string)
  = Some (civ "B" "Bob").
Proof. vm_compute. reflexivity. Qed.

Example parseField_ex1 :
  parseField "TARGET" ("THOUGHT: Thinking" ++ CRLF ++ "TARGET:   Alice   " ++ CRLF ++ "QUESTION: What?")
  = "Alice".
Proof. vm_compute. reflexivity. Qed.

Example parseField_ex2 : parseField "VOTE" "MYVOTE: Bob" = "Bob".
Proof. vm_compute. reflexivity. Qed.

Example parseField_ex3 : parseField "VOTE" ("vote:" ++ LF ++ "Bob") = "Bob".
Proof. vm_compute. reflexivity. Qed.

Example tally_ex :
  tallyVotes [("Alice"%string, 1); ("Bob"%string, 2); ("Charlie"%string, 0)] []
  = Some (mkTally (Some "Bob"%string) false None).
Proof. vm_compute. reflexivity. Qed.

Example setup_ex :
  map name (setupPlayers [SlotAI openai memory_mode; SlotAI openai memory_mode; SlotHuman;
                          SlotAI google stateful_mode] casino 1 (fun _ => 0))
  = ["GPT-1"; "GPT-2"; "You"; "Gemini"]%string.
Proof. vm_compute. reflexivity. Qed.

Example rounds_ex :
  match runQuestionRounds simpleCtl 6
          [civ "GPT-1" "GPT-1"; civ "GPT-2" "GPT-2"; civ "Claude" "Claude";
           mkPlayer "Gemini"%string "Gemini" false SPY] casino false with
  | Done ts NotEnded _ => List.length ts
  | _ => 0
  end = 6.
Proof. vm_compute. reflexivity. Qed.

Example voting_ex :
  runVotingPhase bobVoter abc = Some [("Bob"%string, 2); ("Alice"%string, 1)].
Proof. vm_compute. reflexivity. Qed.

Example legacy_ex :
  legacyConfigToSlots (mkConfig (Some 4) (Some true) None None)
  = [Some SlotHuman; Some (SlotAI openai memory_mode); Some (SlotAI anthropic memory_mode);
     Some (SlotAI google memory_mode)].
Proof. reflexivity. Qed.

End Examples.

(* ================================================================== *)
(** * Lemmas *)

Lemma insert_by_perm {A} (cmp : A -> A -> Z) x l :
  Permutation (insert_by cmp x l) (x :: l).
Proof.
  induction l as [|y t IH]; simpl; [reflexivity|].
  destruct (0 <? cmp x y)%Z; [|reflexivity].
  eapply perm_trans; [apply perm_skip, IH | apply perm_swap].
Qed.

Lemma sort_by_perm {A} (cmp : A -> A -> Z) l : Permutation (sort_by cmp l) l.
Proof.
  induction l as [|x t IH]; simpl; [constructor|].
  eapply perm_trans; [apply insert_by_perm | apply perm_skip, IH].
Qed.

Lemma pickRandom_In {T} draw (arr : list T) x :
  pickRandom draw arr = Some x -> In x arr.
Proof. unfold pickRandom. apply nth_error_In. Qed.

Lemma pickRandom_some {T} (draw : nat -> nat) (arr : list T) :
  (forall n, 0 < n -> draw n < n) -> arr <> [] ->
  exists x, pickRandom draw arr = Some x.
Proof.
  intros Hd Hne. unfold pickRandom.
  destruct (nth_error arr (draw (List.length arr))) as [x|] eqn:E; [eauto|].
  exfalso. apply nth_error_None in E.
  assert (0 < List.length arr) as Hl by (destruct arr; [congruence | simpl; lia]).
  specialize (Hd _ Hl). lia.
Qed.

Lemma safePickRandom_spec {T} draw (arr : list T) fb x :
  safePickRandom draw arr fb = Some x ->
  (arr <> [] /\ In x arr) \/ (arr = [] /\ fb = Some x).
Proof.
  unfold safePickRandom. destruct arr as [|a t].
  - intros ->. right. auto.
  - intros H. left. split; [discriminate|]. eapply pickRandom_In; eauto.
Qed.

Lemma safePickRandom_some {T} (draw : nat -> nat) (arr : list T) fb :
  (forall n, 0 < n -> draw n < n) -> (arr <> [] \/ fb <> None) ->
  exists x, safePickRandom draw arr fb = Some x.
Proof.
  intros Hd Hor. unfold safePickRandom. destruct arr as [|a t].
  - destruct fb as [x|]; [eauto|]. destruct Hor; congruence.
  - apply pickRandom_some; [exact Hd | discriminate].
Qed.

(** Where a result of [resolveTargetPlayer] can come from: a legal player,
    or, when no player is legal, a non-self player or [players[0]]. *)
Lemma resolve_spec draw P q s l p :
  resolveTargetPlayer draw P q s l = Some p ->
  In p P /\
  (legalB s l p = true \/
   (filter (legalB s l) P = [] /\
    (notSelfB s p = true \/ (filter (notSelfB s) P = [] /\ nth_error P 0 = Some p)))).
Proof.
  unfold resolveTargetPlayer; cbv beta zeta.
  fold (legalB s l). fold (notSelfB s).
  destruct (find _ P) as [e|] eqn:Hf.
  - intros H; injection H as H; subst e. apply find_some in Hf as [Hin Hb].
    apply andb_true_iff in Hb as [_ Hl]. auto.
  - destruct (filter _ (filter (legalB s l) P)) as [|c [|c2 cs]] eqn:Hc.
    + destruct (filter (legalB s l) P) as [|v vs] eqn:Hv.
      * intros Hs. apply safePickRandom_spec in Hs as [[_ Hin]|[H0 H1]].
        -- apply filter_In in Hin as [Hin Hb]. auto.
        -- split; [eapply nth_error_In; eauto|]. auto.
      * intros Hs. apply safePickRandom_spec in Hs as [[_ Hin]|[H _]]; [|discriminate].
        rewrite <- Hv in Hin. apply filter_In in Hin as [Hin Hb]. auto.
    + intros H; injection H as H; subst c.
      assert (Hin : In p [p]) by (left; reflexivity).
      rewrite <- Hc in Hin. apply filter_In in Hin as [Hin _].
      apply filter_In in Hin as [Hin Hb]. auto.
    + intros Hh.
      assert (Hin : In p (c :: c2 :: cs)).
      { destruct (sort_by nameLenCmp (c :: c2 :: cs)) as [|h t] eqn:Es; [discriminate|].
        simpl in Hh. injection Hh as ->.
        eapply Permutation_in; [apply sort_by_perm|]. rewrite Es. left; reflexivity. }
      rewrite <- Hc in Hin. apply filter_In in Hin as [Hin _].
      apply filter_In in Hin as [Hin Hb]. auto.
Qed.

(** On a non-empty list the result is always a player. *)
Lemma resolve_some draw P q s l :
  (forall n, 0 < n -> draw n < n) -> P <> [] ->
  exists p, resolveTargetPlayer draw P q s l = Some p.
Proof.
  intros Hd Hne. unfold resolveTargetPlayer; cbv beta zeta.
  fold (legalB s l). fold (notSelfB s).
  destruct (find _ P) as [e|] eqn:Hf; [eauto|].
  destruct (filter _ (filter (legalB s l) P)) as [|c [|c2 cs]] eqn:Hc.
  - destruct (filter (legalB s l) P) as [|v vs] eqn:Hv.
    + apply safePickRandom_some; [exact Hd|]. right.
      destruct P; [congruence | discriminate].
    + apply safePickRandom_some; [exact Hd|]. right. discriminate.
  - eauto.
  - destruct (sort_by nameLenCmp (c :: c2 :: cs)) as [|h t] eqn:Es; [|simpl; eauto].
    pose proof (Permutation_length (sort_by_perm nameLenCmp (c :: c2 :: cs))) as HL.
    rewrite Es in HL. discriminate.
Qed.

Lemma filter_nil_false {A} (f : A -> bool) l x :
  filter f l = [] -> In x l -> f x = false.
Proof.
  intros H Hin. destruct (f x) eqn:E; [|reflexivity].
  assert (Hx : In x (filter f l)) by (apply filter_In; auto).
  rewrite H in Hx. contradiction.
Qed.

Lemma NoDup_map_inj {A B} (f : A -> B) l x y :
  NoDup (map f l) -> In x l -> In y l -> f x = f y -> x = y.
Proof.
  induction l as [|a t IH]; simpl; [tauto|].
  intros Hnd Hx Hy Hf. apply NoDup_cons_iff in Hnd as [Hn Hnd].
  destruct Hx as [<-|Hx], Hy as [<-|Hy]; auto.
  - exfalso. apply Hn. rewrite Hf. now apply in_map.
  - exfalso. apply Hn. rewrite <- Hf. now apply in_map.
Qed.

Lemma all_same_id P s :
  NoDup (map id P) -> In s P -> (forall x, In x P -> id x = id s) -> P = [s].
Proof.
  destruct P as [|a [|b t]]; simpl; intros Hnd Hin Hall.
  - contradiction.
  - destruct Hin as [->|[]]; reflexivity.
  - exfalso. apply NoDup_cons_iff in Hnd as [Hn _]. apply Hn. left.
    rewrite (Hall a), (Hall b); auto.
Qed.

Lemma isIllegal_self s l p : String.eqb (id p) s = true -> isIllegal s l p = true.
Proof. unfold isIllegal. intros ->. reflexivity. Qed.

Lemma isIllegal_true s l p :
  isIllegal s l p = true ->
  id p = s \/ (exists lid, l = Some lid /\ lid <> ""%string /\ id p = lid).
Proof.
  unfold isIllegal. destruct (String.eqb (id p) s) eqn:E.
  - intros _. left. now apply String.eqb_eq.
  - simpl. destruct l as [lid|]; [|discriminate].
    destruct (String.eqb lid "") eqn:E1; [discriminate|]. simpl.
    intros H. right. exists lid. repeat split.
    + now apply String.eqb_neq.
    + now apply String.eqb_eq.
Qed.

Lemma isIllegal_false s l p :
  id p <> s -> (forall lid, l = Some lid -> id p <> lid) -> isIllegal s l p = false.
Proof.
  intros H1 H2. unfold isIllegal.
  apply String.eqb_neq in H1. rewrite H1. simpl.
  destruct l as [lid|]; [|reflexivity].
  specialize (H2 lid eq_refl). apply String.eqb_neq in H2. rewrite H2.
  apply andb_false_r.
Qed.

Lemma resolve_exact draw P q s l e :
  find (fun p => String.eqb (normalizeName (name p)) (normalizeName q)
                 && negb (isIllegal s l p)) P = Some e ->
  resolveTargetPlayer draw P q s l = Some e.
Proof.
  intros H. unfold resolveTargetPlayer; cbv beta zeta.
  rewrite H. reflexivity.
Qed.

(* ================================================================== *)
(** * Name resolution (C1, C10) *)

(** C1 (counterexample): in a two-player game the acting player [A] whose
    last asker is [B] gets [B]: no player is legal, and the fallback only
    excludes self. *)
Lemma resolve_returns_last_asker :
  resolveTargetPlayer (fun _ => 0)
    [mkPlayer "A" "Alice" false SPY; mkPlayer "B" "Bob" false (CIVILIAN "Casino" "Dealer")]
    "Alice" "A" (Some "B"%string)
  = Some (mkPlayer "B" "Bob" false (CIVILIAN "Casino" "Dealer")).
Proof. vm_compute. reflexivity. Qed.

(** C1 (amended): for players with distinct ids, at least two of them, the
    acting player [s] among them, a non-empty last-asker id [l] and
    in-range random draws, [resolveTargetPlayer] returns a player of the
    list other than [s]; it returns the last asker only when every player
    is [s] or the last asker; and when the query normalizes to the
    normalized name of a player other than [s] and [l], it returns that
    player (normalized names being distinct). *)
Theorem resolve_legal_target draw P q s l :
  (forall n, 0 < n -> draw n < n) ->
  NoDup (map id P) -> In s P -> 2 <= List.length P ->
  (forall lid, l = Some lid -> lid <> ""%string) ->
  exists p, resolveTargetPlayer draw P q (id s) l = Some p /\ In p P /\ id p <> id s /\
    (forall lid, l = Some lid -> id p = lid ->
       forall x, In x P -> id x = id s \/ id x = lid) /\
    (forall p', In p' P -> id p' <> id s -> (forall lid, l = Some lid -> id p' <> lid) ->
       normalizeName (name p') = normalizeName q ->
       NoDup (map (fun x => normalizeName (name x)) P) -> p = p').
Proof.
  intros Hd Hnd Hs Hlen Hl.
  assert (HP : P <> []) by (destruct P; simpl in Hlen; [lia | discriminate]).
  destruct (resolve_some draw P q (id s) l Hd HP) as [p Hr].
  exists p. pose proof (resolve_spec _ _ _ _ _ _ Hr) as [Hin Hcase].
  assert (Hns : id p <> id s).
  { intros Heq.
    assert (Hill : isIllegal (id s) l p = true)
      by (apply isIllegal_self; now apply String.eqb_eq).
    unfold legalB, notSelfB in Hcase. rewrite Hill in Hcase.
    destruct Hcase as [Hc|[_ [Hc|[Hc _]]]].
    - discriminate.
    - apply String.eqb_eq in Heq. rewrite Heq in Hc. discriminate.
    - assert (P = [s]) as ->.
      { apply all_same_id; auto. intros x Hx.
        pose proof (filter_nil_false _ _ _ Hc Hx) as Hf. unfold notSelfB in Hf.
        apply negb_false_iff, String.eqb_eq in Hf. exact Hf. }
      simpl in Hlen. lia. }
  repeat split; auto.
  - intros lid Hlid Heq x Hx.
    assert (Hlegal : legalB (id s) l p = false).
    { unfold legalB, isIllegal. subst l. rewrite <- Heq.
      assert (Hne : lid <> ""%string) by (apply Hl; reflexivity).
      apply String.eqb_neq in Hne. rewrite <- Heq in Hne. rewrite Hne, String.eqb_refl.
      simpl. rewrite orb_true_r. reflexivity. }
    destruct Hcase as [Hc|[Hc _]]; [congruence|].
    pose proof (filter_nil_false _ _ _ Hc Hx) as Hf. unfold legalB in Hf.
    apply negb_false_iff, isIllegal_true in Hf as [Hf|[lid' [Heq' [_ Hf]]]]; auto.
    rewrite Hlid in Heq'. injection Heq' as <-. auto.
  - intros p' Hin' Hns' Hnl' Hname Hnames.
    destruct (find (fun x => String.eqb (normalizeName (name x)) (normalizeName q)
                             && negb (isIllegal (id s) l x)) P) as [e|] eqn:Hf.
    + rewrite (resolve_exact draw _ _ _ _ _ Hf) in Hr. injection Hr as <-.
      apply find_some in Hf as [Hine Hb]. apply andb_true_iff in Hb as [Hb _].
      apply String.eqb_eq in Hb.
      eapply (NoDup_map_inj (fun x => normalizeName (name x))); eauto.
      simpl. congruence.
    + exfalso. pose proof (find_none _ _ Hf p' Hin') as Hb. simpl in Hb.
      rewrite Hname, String.eqb_refl, isIllegal_false in Hb; auto. discriminate.
Qed.

Lemma resolve_legal_target_witness :
  exists p, resolveTargetPlayer (fun _ => 0) [civ "A" "Alice"; civ "B" "Bob"; civ "C" "Carol"]
              "carol " (id (civ "A" "Alice")) (Some "B"%string) = Some p /\ p = civ "C" "Carol".
Proof.
  destruct (resolve_legal_target (fun _ => 0) [civ "A" "Alice"; civ "B" "Bob"; civ "C" "Carol"]
              "carol " (civ "A" "Alice") (Some "B"%string))
    as [p [Hr [_ [_ [_ Hex]]]]].
  - intros n Hn. exact Hn.
  - vm_compute. repeat constructor; simpl; intuition discriminate.
  - left. reflexivity.
  - simpl. lia.
  - intros lid H. injection H as <-. discriminate.
  - exists p. split; [exact Hr|]. apply Hex.
    + right; right; left; reflexivity.
    + discriminate.
    + intros lid H. injection H as <-. discriminate.
    + vm_compute. reflexivity.
    + vm_compute. repeat constructor; simpl; intuition discriminate.
Defined.

(** C10: on a one-player list holding only the acting player, the function
    returns that player (the fallback [players[0]] of [safePickRandom]);
    for players with distinct ids containing the acting player, this list
    is the only one on which it returns a player with the acting id. *)
Theorem resolve_singleton_self :
  (forall draw s q l, resolveTargetPlayer draw [s] q (id s) l = Some s) /\
  (forall draw P q s l p, NoDup (map id P) -> In s P ->
     resolveTargetPlayer draw P q (id s) l = Some p -> id p = id s -> P = [s]).
Proof.
  split.
  - intros draw s q l. unfold resolveTargetPlayer; cbv beta zeta.
    unfold isIllegal; cbn. rewrite !String.eqb_refl. cbn.
    rewrite andb_false_r. cbn. reflexivity.
  - intros draw P q s l p Hnd Hs Hr Heq.
    pose proof (resolve_spec _ _ _ _ _ _ Hr) as [Hin Hcase].
    assert (Hill : isIllegal (id s) l p = true)
      by (apply isIllegal_self; now apply String.eqb_eq).
    unfold legalB, notSelfB in Hcase. rewrite Hill in Hcase.
    destruct Hcase as [Hc|[_ [Hc|[Hc _]]]].
    + discriminate.
    + rewrite Heq, String.eqb_refl in Hc. discriminate.
    + apply all_same_id; auto. intros x Hx.
      pose proof (filter_nil_false _ _ _ Hc Hx) as Hf. unfold notSelfB in Hf.
      apply negb_false_iff, String.eqb_eq in Hf. exact Hf.
Qed.

Lemma resolve_singleton_self_witness :
  resolveTargetPlayer (fun _ => 0) [civ "You" "You"] "Bob" "You"%string None = Some (civ "You" "You")
  /\ [civ "You" "You"] = [civ "You" "You"].
Proof.
  split.
  - apply (proj1 resolve_singleton_self (fun _ => 0) (civ "You" "You") "Bob"%string None).
  - apply (proj2 resolve_singleton_self (fun _ => 0) [civ "You" "You"] "Bob"%string (civ "You" "You") None
             (civ "You" "You")).
    + repeat constructor. simpl; tauto.
    + left; reflexivity.
    + vm_compute. reflexivity.
    + reflexivity.
Defined.

(* ================================================================== *)
(** * Vote tally (C6) *)

Lemma insert_voteCmp_sorted x l :
  StronglySorted voteGe l -> StronglySorted voteGe (insert_by voteCmp x l).
Proof.
  induction l as [|y t IH]; simpl; intros Hs.
  - repeat constructor.
  - apply StronglySorted_inv in Hs as [Ht Hy].
    unfold voteCmp. destruct (0 <? Z.of_nat (snd y) - Z.of_nat (snd x))%Z eqn:E.
    + apply Z.ltb_lt in E. constructor; [now apply IH|].
      apply (Permutation_Forall (Permutation_sym (insert_by_perm voteCmp x t))).
      constructor; [unfold voteGe; lia | exact Hy].
    + apply Z.ltb_ge in E. constructor; [constructor; assumption|].
      constructor; [unfold voteGe; lia|].
      eapply Forall_impl; [|exact Hy]. unfold voteGe. intros a Ha. lia.
Qed.

Lemma sort_voteCmp_sorted l : StronglySorted voteGe (sort_by voteCmp l).
Proof.
  induction l as [|x t IH]; simpl; [constructor|].
  now apply insert_voteCmp_sorted.
Qed.

(** C6: on a non-empty vote map, [tallyVotes] reports a tie, with no
    accused, exactly when two different names share the highest count;
    otherwise it accuses the one name whose count is strictly highest. *)
Theorem tallyVotes_tie votes players :
  votes <> [] -> NoDup (map fst votes) ->
  exists r, tallyVotes votes players = Some r /\
    (isTie r = true <->
       exists k1 c1 k2 c2, In (k1, c1) votes /\ In (k2, c2) votes /\ k1 <> k2 /\ c1 = c2 /\
                           forall e, In e votes -> snd e <= c1) /\
    (isTie r = true -> accusedName r = None) /\
    (isTie r = false ->
       exists k c, accusedName r = Some k /\ In (k, c) votes /\
                   forall k' c', In (k', c') votes -> k' <> k -> c' < c).
Proof.
  intros Hne Hnd.
  pose proof (sort_by_perm voteCmp votes) as Hp.
  pose proof (sort_voteCmp_sorted votes) as Hs.
  assert (Hnd' : NoDup (map fst (sort_by voteCmp votes)))
    by (eapply Permutation_NoDup; [apply Permutation_map, Permutation_sym, Hp | exact Hnd]).
  unfold tallyVotes. cbv zeta.
  destruct (sort_by voteCmp votes) as [|a rest] eqn:Es.
  { apply Permutation_nil in Hp. congruence. }
  apply StronglySorted_inv in Hs as [Hsr Ha].
  assert (Hmax : forall e, In e votes -> snd e <= snd a).
  { intros e He. apply (Permutation_in _ (Permutation_sym Hp)) in He.
    destruct He as [<-|He]; [lia|]. rewrite Forall_forall in Ha. exact (Ha e He). }
  assert (HaIn : In a votes) by (apply (Permutation_in _ Hp); left; reflexivity).
  destruct rest as [|b r].
  - (* a single entry *)
    simpl. eexists; split; [reflexivity|]. simpl.
    assert (Hone : forall e, In e votes -> e = a).
    { intros e He. apply (Permutation_in _ (Permutation_sym Hp)) in He.
      destruct He as [<-|[]]; reflexivity. }
    repeat split; try discriminate.
    + intros [k1 [c1 [k2 [c2 [H1 [H2 [Hk _]]]]]]].
      apply Hone in H1. apply Hone in H2. congruence.
    + intros _. exists (fst a), (snd a). split; [reflexivity|].
      split; [destruct a; exact HaIn|].
      intros k' c' H' Hk. apply Hone in H'. subst a. simpl in Hk. congruence.
  - simpl. apply StronglySorted_inv in Hsr as [Hsr Hb].
    simpl in Hnd'. apply NoDup_cons_iff in Hnd' as [Hna Hnd'].
    assert (HbIn : In b votes) by (apply (Permutation_in _ Hp); right; left; reflexivity).
    assert (Hrest : forall e, In e (b :: r) -> snd e <= snd b).
    { intros e [<-|He]; [lia|]. rewrite Forall_forall in Hb. exact (Hb e He). }
    destruct (Nat.eqb (snd a) (snd b)) eqn:Eab; simpl.
    + apply Nat.eqb_eq in Eab.
      eexists; split; [reflexivity|]. simpl. repeat split; try discriminate.
      intros _. exists (fst a), (snd a), (fst b), (snd b).
      repeat split.
      * destruct a; exact HaIn.
      * destruct b; exact HbIn.
      * intros Hk. apply Hna. rewrite Hk. left. reflexivity.
      * exact Eab.
      * exact Hmax.
    + apply Nat.eqb_neq in Eab.
      assert (Hlt : snd b < snd a).
      { rewrite Forall_forall in Ha. specialize (Ha b (or_introl eq_refl)).
        unfold voteGe in Ha. lia. }
      eexists; split; [reflexivity|]. simpl. repeat split; try discriminate.
      * intros [k1 [c1 [k2 [c2 [H1 [H2 [Hk [Hc Hall]]]]]]]]. exfalso.
        assert (Hc1 : c1 = snd a) by (specialize (Hall a HaIn); specialize (Hmax _ H1); simpl in *; lia).
        apply (Permutation_in _ (Permutation_sym Hp)) in H1, H2.
        destruct H1 as [E1|H1]; destruct H2 as [E2|H2].
        -- subst a. injection E2 as <- <-. congruence.
        -- apply Hrest in H2. simpl in H2. lia.
        -- apply Hrest in H1. simpl in H1. lia.
        -- apply Hrest in H1. simpl in H1. lia.
      * intros _. exists (fst a), (snd a). split; [reflexivity|].
        split; [destruct a; exact HaIn|].
        intros k' c' H' Hk.
        apply (Permutation_in _ (Permutation_sym Hp)) in H'.
        destruct H' as [E|H'].
        -- subst a. simpl in Hk. congruence.
        -- apply Hrest in H'. simpl in H'. lia.
Qed.

Lemma tallyVotes_tie_witness :
  exists r, tallyVotes [("Alice", 1); ("Bob", 2); ("Charlie", 0)]%string [] = Some r /\
            accusedName r = Some "Bob"%string.
Proof.
  destruct (tallyVotes_tie [("Alice", 1); ("Bob", 2); ("Charlie", 0)]%string [])
    as [r [Hr _]].
  - discriminate.
  - repeat constructor; simpl; intuition discriminate.
  - exists r. split; [exact Hr|]. vm_compute in Hr. injection Hr as <-. reflexivity.
Defined.

(* ================================================================== *)
(** * Accusation majority (C2) *)

(** C2 (counterexample): in a two-player game the accuser's implicit yes
    is one vote against a threshold of [2 / 2 + 1 = 2]; the accused's
    implicit no is not a yes, so the accusation is not carried. *)
Lemma accusation_two_players_not_convicted :
  handleAccusation
    (mkControllers (fun _ _ => 0) (fun _ _ _ => AVote) (fun _ _ => (""%string, ""%string))
       (fun _ _ => ""%string) (fun _ _ => "Bob"%string) (fun _ _ => true) (fun _ _ _ => None))
    initState (mkPlayer "A" "Alice" false (CIVILIAN "Casino" "Dealer"))
    [mkPlayer "A" "Alice" false (CIVILIAN "Casino" "Dealer"); mkPlayer "B" "Bob" false SPY]
    casino
  = Some NotEnded.
Proof. vm_compute. reflexivity. Qed.

Lemma voters_of_two x y a d :
  In a [x; y] -> In d [x; y] -> id d <> id a ->
  filter (fun p => negb (String.eqb (id p) (id a)) && negb (String.eqb (id p) (id d))) [x; y] = [].
Proof.
  simpl. intros [<-|[<-|[]]] [<-|[<-|[]]] Hne; try congruence;
    simpl; rewrite !String.eqb_refl; simpl; rewrite ?andb_false_r; reflexivity.
Qed.

(** C2 (amended): once the accused is resolved (by exact normalized name)
    and differs from the accuser, the accusation ends the game exactly when
    the yes count, the accuser's implicit yes plus the yes answers of the
    players other than accuser and accused, reaches
    [floor(N/2) + 1] for [N] players; the accused's implicit no never
    counts as a yes, so in a two-player game an accusation never convicts. *)
Theorem accusation_majority ctl st accuser players pack :
  (forall accused,
     find (fun p => String.eqb (normalizeName (name p)) (normalizeName (accuse ctl st accuser)))
          players = Some accused ->
     id accused <> id accuser -> find isSpy players <> None ->
     ((exists w r, handleAccusation ctl st accuser players pack = Some (Ended w r)) <->
      List.length players / 2 + 1
      <= 1 + List.length (filter (voteOnAccusation ctl st)
                            (filter (fun p => negb (String.eqb (id p) (id accuser))
                                              && negb (String.eqb (id p) (id accused))) players)))) /\
  (In accuser players -> List.length players = 2 ->
   handleAccusation ctl st accuser players pack = Some NotEnded).
Proof.
  split.
  - intros accused Hf Hne Hspy. unfold handleAccusation. cbv zeta.
    rewrite Hf. apply String.eqb_neq in Hne. rewrite Hne.
    destruct (find isSpy players) as [spy|]; [|congruence].
    destruct (_ <=? _) eqn:E.
    + apply Nat.leb_le in E. split; [intros _; exact E|]. intros _.
      repeat match goal with |- context [if ?b then _ else _] => destruct b end;
        do 2 eexists; reflexivity.
    + apply Nat.leb_gt in E. split; [|lia]. intros [w [r Hr]]. discriminate.
  - intros Hin Hlen. unfold handleAccusation. cbv zeta.
    destruct (find _ players) as [accused|] eqn:Hf; [|reflexivity].
    destruct (String.eqb (id accused) (id accuser)) eqn:Hid; [reflexivity|].
    apply String.eqb_neq in Hid.
    apply find_some in Hf as [Hd _].
    destruct players as [|x [|y [|z t]]]; simpl in Hlen; try discriminate.
    rewrite (voters_of_two x y accuser accused Hin Hd Hid). reflexivity.
Qed.

Lemma accusation_majority_witness :
  (exists w r,
     handleAccusation
       (mkControllers (fun _ _ => 0) (fun _ _ _ => AVote) (fun _ _ => (""%string, ""%string))
          (fun _ _ => ""%string) (fun _ _ => "Bob"%string) (fun _ _ => true) (fun _ _ _ => None))
       initState (civ "A" "Alice") [civ "A" "Alice"; mkPlayer "B" "Bob" false SPY; civ "C" "Carol"]
       casino = Some (Ended w r)) /\
  handleAccusation
    (mkControllers (fun _ _ => 0) (fun _ _ _ => AVote) (fun _ _ => (""%string, ""%string))
       (fun _ _ => ""%string) (fun _ _ => "Bob"%string) (fun _ _ => true) (fun _ _ _ => None))
    initState (civ "A" "Alice") [civ "A" "Alice"; mkPlayer "B" "Bob" false SPY] casino
  = Some NotEnded.
Proof.
  split.
  - apply (proj1 (accusation_majority _ initState (civ "A" "Alice")
                    [civ "A" "Alice"; mkPlayer "B" "Bob" false SPY; civ "C" "Carol"] casino)
                 (mkPlayer "B" "Bob" false SPY)).
    + vm_compute. reflexivity.
    + discriminate.
    + discriminate.
    + vm_compute. lia.
  - apply (proj2 (accusation_majority _ initState (civ "A" "Alice")
                    [civ "A" "Alice"; mkPlayer "B" "Bob" false SPY] casino)).
    + left. reflexivity.
    + reflexivity.
Defined.

(* ================================================================== *)
(** * Spy guesses (C5) *)

(** C5 (counterexample): normalization is trim + lowercase only, so
    ["the CASINO "] does not match ["Casino"] and the early guess loses;
    and after a tied vote a wrong final guess still leaves the spy the
    winner. *)
Lemma spy_guess_not_fuzzy :
  normalizeName "the CASINO " <> normalizeName "Casino" /\
  handleEarlySpyGuess (Some "GUESS: the CASINO "%string) "Casino"
  = Ended WCivilians "Spy guessed wrong!" /\
  finalWinner None (mkPlayer "B" "Bob" false SPY)
    (runSpyGuessIfEligible None true (mkPlayer "B" "Bob" false SPY) "Casino"
       (Some "GUESS: Beach"%string)) = WSpy.
Proof. vm_compute. split; [discriminate|]. split; reflexivity. Qed.

(** C5 (amended): the early guess always ends the game, and the spy wins
    iff the extracted guess and the location are equal after trim +
    lowercase; the final guess is taken only after the vote accused the spy
    or tied, and is right iff the same equality holds; the civilians win
    the final scoring exactly when the vote accused the spy and the guess
    was not right, so after a tie the spy wins whatever the guess. *)
Theorem spy_guess_normalized :
  (forall raw loc, exists w r, handleEarlySpyGuess raw loc = Ended w r /\
     (w = WSpy <-> normalizeName (parseField "GUESS" (guessText raw)) = normalizeName loc)) /\
  (forall acc tie spy loc raw, sameName acc spy = true \/ tie = true ->
     (runSpyGuessIfEligible acc tie spy loc raw = true <->
      normalizeName (parseField "GUESS" (guessText raw)) = normalizeName loc)) /\
  (forall acc tie spy loc raw,
     finalWinner acc spy (runSpyGuessIfEligible acc tie spy loc raw) = WCivilians <->
     sameName acc spy = true /\
     normalizeName (parseField "GUESS" (guessText raw)) <> normalizeName loc).
Proof.
  split; [|split].
  - intros raw loc. unfold handleEarlySpyGuess.
    destruct (String.eqb_spec (normalizeName (parseField "GUESS" (guessText raw)))
                              (normalizeName loc)) as [E|E];
      do 2 eexists; (split; [reflexivity|]); split; congruence.
  - intros acc tie spy loc raw Hel. unfold runSpyGuessIfEligible.
    destruct Hel as [-> | ->]; simpl; [|rewrite andb_false_r]; apply String.eqb_eq.
  - intros acc tie spy loc raw. unfold finalWinner, runSpyGuessIfEligible.
    destruct (sameName acc spy), tie; simpl;
      try destruct (String.eqb_spec (normalizeName (parseField "GUESS" (guessText raw)))
                                    (normalizeName loc));
      split; intros H; try discriminate; try tauto; destruct H; try discriminate; try tauto.
Qed.

Lemma spy_guess_normalized_witness :
  runSpyGuessIfEligible (Some "Bob"%string) false (mkPlayer "B" "Bob" false SPY) "Casino"
    (Some "GUESS:   CASINO "%string) = true.
Proof.
  apply (proj1 (proj2 spy_guess_normalized)).
  - left. reflexivity.
  - vm_compute. reflexivity.
Defined.

(* ================================================================== *)
(** * Provider failures in [Agent.say] (C3) *)

(** C3 (divergence): with a provider whose calls reject with ["503"], a
    memory-mode agent's [say] rejects with that error (no [try] around
    [provider.chat]); only the stateful path turns it into the answer
    ["Error: 503"]; and a stateful agent whose [init] rejected rejects
    too, since [await this.ready] sits outside the [try]. *)
Theorem say_propagates_provider_failure :
  fst (say (failingProvider false) (newAgent (failingProvider false) "sys" memory_mode) "hi"%string)
  = Rejected "503"%string /\
  fst (say (failingProvider true) (newAgent (failingProvider true) "sys" stateful_mode) "hi")
  = Resolved "Error: 503"%string /\
  fst (say failingInitProvider (newAgent failingInitProvider "sys" stateful_mode) "hi")
  = Rejected "bad key"%string.
Proof. repeat split; reflexivity. Qed.

(** The memory path propagates every rejection of [provider.chat]. *)
Lemma sayWithMemory_rejects (prov : AIProvider) (a : Agent) (u e : string) :
  agentMode a = memory_mode ->
  chat prov (agentMemory a ++ [mkMsg RUser u]) = Rejected e ->
  fst (say prov a u) = Rejected e.
Proof. intros Hm Hc. unfold say. rewrite Hm. unfold sayWithMemory. rewrite Hc. reflexivity. Qed.

(* ================================================================== *)
(** * The question-round loop: length of the transcript (C9) *)

Section RoundsLength.
Variable ctl : Controllers.
Variable players : list Player.
Variable pack : LocationPack.
Hypothesis draw_ok : forall st n, 0 < n -> draw ctl st n < n.
Hypothesis players_ne : players <> [].

Lemma questionStep_continue st a :
  exists st', questionStep ctl players st a = Continue st' /\
    List.length (turns st') = S (List.length (turns st)) /\
    roundCount st' = roundCount st /\ currentAsker st' <> None.
Proof.
  unfold questionStep. destruct (ask ctl st a) as [tn q].
  destruct (resolve_some (draw ctl st) players tn (id a) (option_map id (lastAsker st))
              (draw_ok st) players_ne) as [t Ht].
  rewrite Ht. eexists; split; [reflexivity|]. cbn.
  rewrite length_app. cbn. repeat split; [lia | discriminate].
Qed.

Hypothesis spy_never_guesses : forall st p c, isSpy p = true -> chooseAction ctl st p c <> AGuess.

Lemma iter_no_vote st :
  currentAsker st <> None ->
  exists st', iter ctl players pack false st = Continue st' /\
    List.length (turns st') = S (List.length (turns st)) /\
    roundCount st' = S (roundCount st) /\ currentAsker st' <> None.
Proof.
  intros Hc. unfold iter.
  change (currentAsker (set_roundCount st (S (roundCount st)))) with (currentAsker st).
  destruct (currentAsker st) as [a|] eqn:Ha; [|congruence].
  destruct (List.length players <=? List.length (answered _)).
  - cbn [andb negb].
    destruct (chooseAction ctl (set_roundCount st (S (roundCount st))) a false) eqn:Hact;
      [| destruct (isSpy a) eqn:Hs; [exfalso; exact (spy_never_guesses _ _ _ Hs Hact)|] |];
      cbn [isVote andb];
      match goal with |- context [questionStep ctl players ?s a] =>
        destruct (questionStep_continue s a) as (st' & E & L & R & C); rewrite E end;
      eexists; (split; [reflexivity|]); cbn in L, R; auto.
  - destruct (questionStep_continue (set_roundCount st (S (roundCount st))) a) as (st' & E & L & R & C).
    rewrite E. eexists; split; [reflexivity|]. cbn in L, R. auto.
Qed.

Lemma loop_no_vote numRounds f st :
  currentAsker st <> None ->
  List.length (turns st) = roundCount st ->
  roundCount st + f = numRounds ->
  exists st', loop ctl players pack false numRounds f st = Done (turns st') NotEnded st' /\
    List.length (turns st') = numRounds.
Proof.
  revert st. induction f as [|f IH]; intros st Hc Hl Hr; cbn [loop].
  - exists st. split; [reflexivity | lia].
  - replace (roundCount st <? numRounds) with true by (symmetry; apply Nat.ltb_lt; lia).
    destruct (iter_no_vote st Hc) as (st' & E & L & R & C). rewrite E.
    apply IH; auto; lia.
Qed.

End RoundsLength.

(** C9: with early voting disabled, a non-empty player list, in-range
    random draws and a spy whose controller never picks the guess action,
    [runQuestionRounds] ends normally ([ended = false]) after a transcript
    of exactly [numRounds] turns, one per iteration. *)
Theorem runQuestionRounds_length ctl numRounds players pack :
  (forall st n, 0 < n -> draw ctl st n < n) -> players <> [] ->
  (forall st p c, isSpy p = true -> chooseAction ctl st p c <> AGuess) ->
  exists st, runQuestionRounds ctl numRounds players pack false = Done (turns st) NotEnded st /\
             List.length (turns st) = numRounds.
Proof.
  intros Hd Hne Hs. unfold runQuestionRounds.
  destruct (pickRandom_some (draw ctl initState) players (Hd initState) Hne) as [first Hf].
  rewrite Hf. apply loop_no_vote; auto; cbn; try discriminate; lia.
Qed.

Lemma runQuestionRounds_length_witness :
  exists st, runQuestionRounds simpleCtl 6
    [civ "GPT-1" "GPT-1"; civ "GPT-2" "GPT-2"; civ "Claude" "Claude";
     mkPlayer "Gemini" "Gemini" false SPY] casino false = Done (turns st) NotEnded st /\
  List.length (turns st) = 6.
Proof.
  apply runQuestionRounds_length.
  - intros st n Hn. cbn. exact Hn.
  - discriminate.
  - intros st p c _. cbn. discriminate.
Defined.

(* ================================================================== *)
(** * The one-time accusation right (C8) *)

Lemma snoc_split {A} (pre post l : list A) z e :
  pre ++ z :: post = l ++ [e] ->
  (post = [] /\ z = e /\ pre = l) \/
  (exists post0, post = post0 ++ [e] /\ l = pre ++ z :: post0).
Proof.
  destruct post as [|p post0] using rev_ind; intros H.
  - left. apply app_inj_tail in H. intuition.
  - right. replace (pre ++ z :: post0 ++ [p]) with ((pre ++ z :: post0) ++ [p]) in H
      by (rewrite <- app_assoc; reflexivity).
    apply app_inj_tail in H.
    destruct H as [H1 H2]. subst. eauto.
Qed.

Lemma mem_setAdd_self x l : mem x (setAdd x l) = true.
Proof.
  unfold setAdd. destruct (mem x l) eqn:E; [exact E|].
  unfold mem. rewrite existsb_app. cbn. rewrite String.eqb_refl. apply orb_true_r.
Qed.

Lemma mem_setAdd_old x y l : mem x l = true -> mem x (setAdd y l) = true.
Proof.
  intros H. unfold setAdd. destruct (mem y l); [exact H|].
  unfold mem in *. rewrite existsb_app, H. reflexivity.
Qed.

Lemma mem_setAdd_inv x y l : mem x (setAdd y l) = true -> x = y \/ mem x l = true.
Proof.
  unfold setAdd. destruct (mem y l); [auto|].
  unfold mem. rewrite existsb_app. cbn. rewrite orb_false_r.
  intros H. apply orb_true_iff in H as [H|H]; [auto|].
  left. apply String.eqb_eq in H. exact H.
Qed.

Lemma accuse_inv_ext st st' :
  offers st' = offers st -> usedVote st' = usedVote st -> accuse_inv st -> accuse_inv st'.
Proof. intros Ho Hu. unfold accuse_inv. rewrite Ho, Hu. tauto. Qed.

Lemma accuse_inv_step st st' y c act :
  accuse_inv st ->
  offers st' = offers st ++ [(y, c, act)] ->
  (c = true -> mem y (usedVote st) = false) ->
  (if c && isVote act then usedVote st' = setAdd y (usedVote st)
   else usedVote st' = usedVote st) ->
  accuse_inv st'.
Proof.
  intros [I1 I2] Ho Hc Hu.
  assert (Hmono : forall x, mem x (usedVote st) = true -> mem x (usedVote st') = true).
  { intros x Hx. destruct (c && isVote act); rewrite Hu; [apply mem_setAdd_old|]; exact Hx. }
  split.
  - intros pre x post H. rewrite Ho in H. symmetry in H.
    apply snoc_split in H as [(-> & Heq & _) | (post0 & -> & Hl)].
    + injection Heq as <- <- <-. cbn in Hu. rewrite Hu.
      split; [apply mem_setAdd_self | intros ? ? []].
    + destruct (I1 _ _ _ Hl) as [Hm Hl2].
      split; [auto|]. intros c' act' Hin. apply in_app_or in Hin as [Hin|[Hin|[]]].
      * eauto.
      * injection Hin as E1 E2 E3. subst y. rewrite <- E2. destruct c; [|reflexivity].
        rewrite (Hc eq_refl) in Hm. discriminate.
  - intros x Hx. rewrite Ho.
    destruct (c && isVote act) eqn:Hv.
    + rewrite Hu in Hx. apply mem_setAdd_inv in Hx as [->|Hx].
      * apply andb_true_iff in Hv as [-> Hv]. destruct act; try discriminate.
        exists (offers st), []. reflexivity.
      * destruct (I2 x Hx) as (pre & post & E). exists pre, (post ++ [(y, c, act)]).
        rewrite E, <- app_assoc. reflexivity.
    + rewrite Hu in Hx. destruct (I2 x Hx) as (pre & post & E).
      exists pre, (post ++ [(y, c, act)]). rewrite E, <- app_assoc. reflexivity.
Qed.

Lemma questionStep_fields ctl players st a :
  match questionStep ctl players st a with
  | Continue st' | Throw st' => offers st' = offers st /\ usedVote st' = usedVote st
  | Return _ _ _ => False
  end.
Proof.
  unfold questionStep. destruct (ask ctl st a) as [tn q].
  destruct (resolveTargetPlayer _ _ _ _ _); cbn; auto.
Qed.

Lemma questionStep_inv ctl players st a :
  accuse_inv st ->
  match questionStep ctl players st a with
  | Continue st' | Return _ _ st' | Throw st' => accuse_inv st'
  end.
Proof.
  intros I. pose proof (questionStep_fields ctl players st a) as F.
  destruct (questionStep ctl players st a); try contradiction;
    destruct F; eapply accuse_inv_ext; eauto.
Qed.

Lemma iter_inv ctl players pack allow st :
  accuse_inv st ->
  match iter ctl players pack allow st with
  | Continue st' | Return _ _ st' | Throw st' => accuse_inv st'
  end.
Proof.
  intros I. unfold iter. cbv zeta.
  set (st1 := set_roundCount st (S (roundCount st))).
  assert (I1 : accuse_inv st1) by (apply (accuse_inv_ext st); reflexivity || assumption).
  destruct (currentAsker st1) as [a|]; [|exact I1].
  destruct (List.length players <=? List.length (answered st1)); [|apply questionStep_inv, I1].
  set (cA := allow && negb (mem (id a) (usedVote st1))).
  assert (HcA : cA = true -> mem (id a) (usedVote st1) = false).
  { unfold cA. destruct allow, (mem (id a) (usedVote st1)); cbn; auto. }
  remember (chooseAction ctl st1 a cA) as act eqn:Hact.
  assert (I2 : cA && isVote act = false ->
               accuse_inv (set_offers st1 (offers st1 ++ [(id a, cA, act)]))).
  { intros Hnv. eapply accuse_inv_step; [exact I1 | reflexivity | exact HcA |].
    rewrite Hnv. reflexivity. }
  destruct act.
  - apply questionStep_inv, I2. apply andb_false_r.
  - destruct (isSpy a);
      [destruct (handleEarlySpyGuess _ _); [|apply I2, andb_false_r]|];
      cbn [isVote andb]; rewrite ?andb_false_r; apply questionStep_inv, I2, andb_false_r.
  - cbn [isVote andb]. destruct cA eqn:Hc.
    + assert (I3 : accuse_inv (set_usedVote (set_offers st1 (offers st1 ++ [(id a, true, AVote)]))
                      (setAdd (id a) (usedVote (set_offers st1 (offers st1 ++ [(id a, true, AVote)])))))).
      { eapply accuse_inv_step; [exact I1 | reflexivity | exact HcA | reflexivity]. }
      destruct (handleAccusation _ _ _ _ _) as [[|w r]|]; try exact I3.
    + apply questionStep_inv, I2. reflexivity.
Qed.

Lemma loop_inv ctl players pack allow numRounds fuel st :
  accuse_inv st ->
  match loop ctl players pack allow numRounds fuel st with
  | Done _ _ st' | Crash st' => accuse_inv st'
  end.
Proof.
  revert st. induction fuel as [|f IH]; intros st I; cbn [loop]; [exact I|].
  destruct (roundCount st <? numRounds); [|exact I].
  pose proof (iter_inv ctl players pack allow st I) as J.
  destruct (iter ctl players pack allow st); [apply IH, J | exact J | exact J].
Qed.

(** C8: in every run of the question loop, whatever the controllers
    answer and however the run ends (early end, normal end or uncaught
    error), each time the asker was offered the accusation and chose
    "vote", the asker's id is in [usedVote] at the end, also when the
    accusation itself resolved no one or the asker themself and did
    nothing; no later offer to that asker had [canAccuse] set; and every
    id in [usedVote] got there through such a taken accusation. *)
Theorem accusation_right_consumed ctl numRounds players pack allow :
  match runQuestionRounds ctl numRounds players pack allow with
  | Done _ _ st | Crash st =>
      (forall pre x post, offers st = pre ++ (x, true, AVote) :: post ->
         mem x (usedVote st) = true /\ (forall c act, In (x, c, act) post -> c = false)) /\
      (forall x, mem x (usedVote st) = true ->
         exists pre post, offers st = pre ++ (x, true, AVote) :: post)
  end.
Proof.
  assert (I0 : accuse_inv initState).
  { split.
    - intros pre x post H. cbn in H. destruct pre; discriminate.
    - intros x H. discriminate. }
  unfold runQuestionRounds. destruct (pickRandom _ players) as [first|]; [|exact I0].
  apply loop_inv. apply (accuse_inv_ext initState); [reflexivity | reflexivity | exact I0].
Qed.

(* ================================================================== *)
(** * Setup: secrets of the players (C7) *)

Lemma set_nth_app_ge {A} (l1 l : list A) n v :
  List.length l1 <= n -> set_nth (l1 ++ l) n v = l1 ++ set_nth l (n - List.length l1) v.
Proof.
  revert n. induction l1 as [|x t IH]; intros n Hn; cbn.
  - now rewrite Nat.sub_0_r.
  - destruct n as [|n]; [cbn in Hn; lia|]. cbn in Hn. rewrite IH by lia. reflexivity.
Qed.

Lemma set_nth_mid {A} (l1 l2 : list A) z v :
  set_nth (l1 ++ z :: l2) (List.length l1) v = l1 ++ v :: l2.
Proof. rewrite set_nth_app_ge, Nat.sub_diag by lia. reflexivity. Qed.

Lemma set_nth_far {A} (l1 l2 l3 : list A) z w v :
  set_nth (l1 ++ z :: l2 ++ w :: l3) (List.length l1 + S (List.length l2)) v
  = l1 ++ z :: l2 ++ v :: l3.
Proof.
  rewrite set_nth_app_ge by lia. replace (_ + _ - _) with (S (List.length l2)) by lia.
  cbn. f_equal. f_equal. apply set_nth_mid.
Qed.

Lemma perm_two_swap {A} (l1 l2 l3 : list A) x y :
  Permutation (l1 ++ y :: l2 ++ x :: l3) (l1 ++ x :: l2 ++ y :: l3).
Proof.
  apply Permutation_app_head.
  eapply perm_trans; [apply perm_skip, Permutation_sym, Permutation_middle|].
  eapply perm_trans; [apply perm_swap|].
  apply perm_skip, Permutation_middle.
Qed.

Lemma split_two {A} (a : list A) i j x y :
  i < j -> nth_error a i = Some x -> nth_error a j = Some y ->
  exists l1 l2 l3, a = l1 ++ x :: l2 ++ y :: l3 /\ List.length l1 = i /\
                   j = List.length l1 + S (List.length l2).
Proof.
  intros Hij Hx Hy.
  destruct (nth_error_split a i Hx) as (l1 & m & -> & Hl1).
  rewrite nth_error_app2 in Hy by lia.
  replace (j - List.length l1) with (S (j - i - 1)) in Hy by lia. cbn in Hy.
  destruct (nth_error_split m _ Hy) as (l2 & l3 & -> & Hl2).
  exists l1, l2, l3. repeat split; auto; lia.
Qed.

Lemma swap_perm {A} i j (a : list A) : Permutation (swap i j a) a.
Proof.
  unfold swap.
  destruct (nth_error a i) as [x|] eqn:Hx; [|reflexivity].
  destruct (nth_error a j) as [y|] eqn:Hy; [|reflexivity].
  destruct (Nat.lt_trichotomy i j) as [Hij|[<-|Hij]].
  - destruct (split_two a i j x y Hij Hx Hy) as (l1 & l2 & l3 & -> & <- & ->).
    rewrite set_nth_mid, set_nth_far. apply perm_two_swap.
  - rewrite Hx in Hy. injection Hy as ->.
    destruct (nth_error_split a i Hx) as (l1 & m & -> & <-).
    rewrite !set_nth_mid. reflexivity.
  - destruct (split_two a j i y x Hij Hy Hx) as (l1 & l2 & l3 & -> & <- & ->).
    rewrite set_nth_far, set_nth_mid. apply perm_two_swap.
Qed.

Lemma shuffle_perm {A} r (a : list A) : Permutation (shuffle r a) a.
Proof.
  unfold shuffle. generalize (List.length a - 1) as i. intros i. revert a.
  induction i as [|i IH]; intros a; cbn; [reflexivity|].
  eapply perm_trans; [apply IH | apply swap_perm].
Qed.

Lemma pops_spec k l :
  pops k l = map Some (firstn k (rev l)) ++ repeat None (k - List.length l).
Proof.
  revert l. induction k as [|k IH]; intros l; [reflexivity|].
  cbn [pops]. unfold pop. destruct (rev l) as [|x t] eqn:E.
  - assert (l = []) as -> by (destruct l; [reflexivity|]; apply (f_equal (@List.length _)) in E;
                              rewrite length_rev in E; discriminate).
    cbn. rewrite IH. cbn. rewrite Nat.sub_0_r, firstn_nil. reflexivity.
  - cbn [fst snd]. rewrite IH, rev_involutive, length_rev.
    apply (f_equal (@List.length _)) in E. rewrite length_rev in E. cbn in E. rewrite E.
    reflexivity.
Qed.

Ltac nat_bools :=
  cbn [List.length] in *;
  repeat match goal with
         | |- context [?a <=? ?b] => destruct (Nat.leb_spec a b)
         | |- context [?a <? ?b] => destruct (Nat.ltb_spec a b)
         end; cbn; lia.

Lemma nonspy_spec s i m :
  nonspy s i m = if (i <=? s) && (s <? i + m) then m - 1 else m.
Proof.
  unfold nonspy. revert i. induction m as [|m IH]; intros i; [destruct (_ && _); reflexivity|].
  cbn [seq filter]. destruct (Nat.eqb_spec i s) as [->|Hne]; cbn [negb].
  - rewrite IH. nat_bools.
  - cbn [List.length]. rewrite IH. nat_bools.
Qed.

Lemma build_fields allSlots pack s i slots rl inst :
  List.length (filter isSpy (buildPlayers allSlots pack s i slots rl inst))
    = (if (i <=? s) && (s <? i + List.length slots) then 1 else 0) /\
  (forall p, In p (buildPlayers allSlots pack s i slots rl inst) -> isSpy p = false ->
     exists ro, secret p = CIVILIAN (location pack) ro) /\
  civRoles (buildPlayers allSlots pack s i slots rl inst)
    = map roleOrVisitor (pops (nonspy s i (List.length slots)) rl).
Proof.
  revert i rl inst. induction slots as [|slot rest IH]; intros i rl inst.
  - split; [nat_bools | split; [intros p [] | reflexivity]].
  - assert (Hns := nonspy_spec s i (S (List.length rest))).
    assert (Hns' := nonspy_spec s (S i) (List.length rest)).
    cbn [buildPlayers List.length].
    destruct (match slot with SlotHuman => _ | SlotAI _ _ => _ end) as [nm inst'].
    destruct (Nat.eqb_spec i s) as [->|Hne].
    + destruct (IH (S s) rl inst') as (H1 & H2 & H3).
      cbn [filter isSpy secret List.length]. repeat split.
      * rewrite H1. nat_bools.
      * intros p [<-|Hp] Hs; [discriminate | eauto].
      * unfold civRoles in *. cbn [flat_map secret app]. rewrite H3. f_equal. f_equal.
        rewrite Hns, Hns'. nat_bools.
    + destruct (pop rl) as [o rl'] eqn:Hpop.
      destruct (IH (S i) rl' inst') as (H1 & H2 & H3).
      cbn [filter isSpy secret]. repeat split.
      * rewrite H1. nat_bools.
      * intros p [<-|Hp] Hs; [eexists; reflexivity | eauto].
      * unfold civRoles in *. cbn [flat_map secret app]. rewrite H3.
        replace (nonspy s i (S (List.length rest))) with (S (nonspy s (S i) (List.length rest)))
          by (rewrite Hns, Hns'; nat_bools).
        cbn [pops map]. rewrite Hpop. reflexivity.
Qed.

Lemma in_rev_firstn_perm (R sh : list string) k x :
  Permutation sh R -> In x (rev (firstn k sh)) -> In x R.
Proof.
  intros Hp Hx. apply in_rev in Hx.
  apply (Permutation_in _ Hp). rewrite <- (firstn_skipn k sh). apply in_or_app. auto.
Qed.

(** C7 (counterexample): nothing bounds the number of slots; with nine
    players and a six-role pack, two civilians get the role ["Visitor"],
    which is not a role of the pack, and the roles are not distinct. *)
Lemma setup_visitor_roles :
  count_occ string_dec (civRoles (setupPlayers nineGPT casino 0 (fun _ => 0))) "Visitor"%string = 2 /\
  ~ In "Visitor"%string (roles casino).
Proof.
  split; [vm_compute; reflexivity|].
  cbn. intros H. repeat destruct H as [H|H]; try discriminate; contradiction.
Qed.

(** C7 (amended): for [n] slots, a spy index below [n] (as
    [Math.floor(Math.random() * n)] is for [n >= 1]), any shuffle draws,
    and a pack whose roles are distinct and non-empty, exactly one player
    is the spy; every other player is a civilian at the pack's location;
    and the civilians' roles, in order, are [min(n-1, #roles)] pairwise
    distinct roles of the pack followed by one ["Visitor"] for each
    civilian beyond the pack's role count. *)
Theorem setup_secrets slots pack spyIndex r :
  spyIndex < List.length slots -> NoDup (roles pack) ->
  Forall (fun x => x <> ""%string) (roles pack) ->
  List.length (filter isSpy (setupPlayers slots pack spyIndex r)) = 1 /\
  (forall p, In p (setupPlayers slots pack spyIndex r) -> isSpy p = false ->
     exists ro, secret p = CIVILIAN (location pack) ro) /\
  exists drawn,
    civRoles (setupPlayers slots pack spyIndex r)
      = drawn ++ repeat "Visitor"%string (List.length slots - 1 - List.length (roles pack)) /\
    NoDup drawn /\ incl drawn (roles pack) /\
    List.length drawn = Nat.min (List.length slots - 1) (List.length (roles pack)).
Proof.
  intros Hs Hnd Hne. unfold setupPlayers. cbv zeta.
  destruct (build_fields slots pack spyIndex 0 slots
              (slice_roles (shuffle r (roles pack)) (List.length slots)) (fun _ => 0))
    as (H1 & H2 & H3).
  split; [rewrite H1; nat_bools|]. split; [exact H2|].
  pose proof (shuffle_perm r (roles pack)) as Hp.
  revert Hp H3. generalize (shuffle r (roles pack)) as sh. intros sh Hp' H3. clear H1 H2.
  destruct (List.length slots) as [|k] eqn:En; [lia|].
  replace (nonspy spyIndex 0 (S k)) with k in H3 by (rewrite nonspy_spec; nat_bools).
  cbn [slice_roles] in H3 |- *. rewrite pops_spec in H3.
  assert (Hlen : List.length (firstn k sh) = Nat.min k (List.length (roles pack))).
  { rewrite length_firstn, (Permutation_length Hp'). reflexivity. }
  rewrite (firstn_all2 (rev (firstn k sh)) (n := k)) in H3 by (rewrite length_rev; lia).
  exists (rev (firstn k sh)). split; [|split; [|split]].
  - rewrite H3, map_app, map_map, map_repeat. f_equal.
    + rewrite <- (map_id (rev (firstn k sh))) at 2. apply map_ext_in. intros x Hx.
      unfold roleOrVisitor. destruct (String.eqb_spec x ""); [|reflexivity].
      exfalso. refine (proj1 (Forall_forall _ _) Hne x _ e).
      exact (in_rev_firstn_perm _ _ _ _ Hp' Hx).
    + f_equal. lia.
  - apply NoDup_rev. apply (NoDup_app_remove_r _ (skipn k sh)). rewrite firstn_skipn.
    exact (Permutation_NoDup (Permutation_sym Hp') Hnd).
  - intros x Hx. exact (in_rev_firstn_perm _ _ _ _ Hp' Hx).
  - rewrite length_rev, Hlen. f_equal. lia.
Qed.

Lemma setup_secrets_witness :
  List.length (filter isSpy (setupPlayers nineGPT casino 3 (fun i => i / 2))) = 1.
Proof.
  apply (setup_secrets nineGPT casino 3 (fun i => i / 2)).
  - cbn. lia.
  - vm_compute. repeat constructor; cbn; intuition discriminate.
  - repeat constructor; discriminate.
Defined.

(* ================================================================== *)
(** * parseField (C4) *)

Lemma search_eq pat l :
  Regex.search pat l = match Regex.match_at pat l with
                       | Some r => Some r
                       | None => match l with [] => None | _ :: t => Regex.search pat t end
                       end.
Proof. destruct l; reflexivity. Qed.

Lemma match_at_app pat m r : ci_same pat m = true -> Regex.match_at pat (m ++ r) = Some r.
Proof.
  revert m. induction pat as [|p ps IH]; intros [|c m] H; cbn in *; try discriminate; auto.
  apply andb_true_iff in H as [-> H]. auto.
Qed.

Lemma match_at_some pat l r :
  Regex.match_at pat l = Some r -> exists m, l = m ++ r /\ ci_same pat m = true.
Proof.
  revert l. induction pat as [|p ps IH]; intros l H; cbn in H.
  - injection H as <-. exists []. auto.
  - destruct l as [|c t]; [discriminate|].
    destruct (Regex.ci_eq p c) eqn:E; [|discriminate].
    destruct (IH t H) as (m & -> & Hm). exists (c :: m). cbn. rewrite E, Hm. auto.
Qed.

Lemma search_none pat l :
  (forall p1 m p2, l = p1 ++ m ++ p2 -> ci_same pat m = false) ->
  Regex.search pat l = None.
Proof.
  induction l as [|c t IH]; intros H; rewrite search_eq.
  - destruct (Regex.match_at pat []) eqn:E; [|reflexivity].
    destruct (match_at_some _ _ _ E) as (m & Hm & Hs).
    rewrite (H [] m l) in Hs; [discriminate | exact Hm].
  - destruct (Regex.match_at pat (c :: t)) eqn:E.
    + destruct (match_at_some _ _ _ E) as (m & Hm & Hs).
      rewrite (H [] m l) in Hs; [discriminate | exact Hm].
    + apply IH. intros p1 m p2 ->. apply (H (c :: p1) m p2). reflexivity.
Qed.

Lemma search_skip pat pre rest :
  (forall p0 s, pre = p0 ++ s -> s <> [] -> Regex.match_at pat (s ++ rest) = None) ->
  Regex.search pat (pre ++ rest) = Regex.search pat rest.
Proof.
  induction pre as [|c t IH]; intros H; [reflexivity|].
  cbn [app]. rewrite search_eq.
  pose proof (H [] (c :: t) eq_refl ltac:(discriminate)) as H0. cbn [app] in H0. rewrite H0.
  apply IH. intros p0 s -> Hs. apply (H (c :: p0) s); auto.
Qed.

Lemma ci_same_app p a b :
  ci_same p (a ++ b) = true ->
  exists p1 p2, p = p1 ++ p2 /\ ci_same p1 a = true /\ ci_same p2 b = true.
Proof.
  revert p. induction a as [|c a IH]; intros p H.
  - exists [], p. auto.
  - destruct p as [|q p]; [discriminate|]. cbn in H. apply andb_true_iff in H as [Hq H].
    destruct (IH p H) as (p1 & p2 & -> & H1 & H2). exists (q :: p1), p2. cbn. rewrite Hq, H1. auto.
Qed.

Lemma ci_same_length p m : ci_same p m = true -> List.length p = List.length m.
Proof.
  revert m. induction p as [|a p IH]; intros [|b m] H; cbn in *; try discriminate; auto.
  apply andb_true_iff in H as [_ H]. auto.
Qed.

(** Facts on the 256 characters. *)
Lemma is_letter_to_lower c : is_letter (Str.to_lower c) = is_letter c.
Proof. destruct c as [[] [] [] [] [] [] [] []]; reflexivity. Qed.

Lemma letter_lower_not_ctl c :
  is_letter c = true -> Str.to_lower c <> CRc /\ Str.to_lower c <> LFc.
Proof.
  destruct c as [[] [] [] [] [] [] [] []]; intros H; vm_compute in H;
    try discriminate H; split; vm_compute; discriminate.
Qed.

Lemma ci_eq_letter k c : Regex.ci_eq k c = true -> is_letter k = is_letter c.
Proof.
  unfold Regex.ci_eq. intros H. apply Ascii.eqb_eq in H.
  rewrite <- (is_letter_to_lower k), <- (is_letter_to_lower c), H. reflexivity.
Qed.

Lemma ci_same_letters p m :
  ci_same p m = true -> Forall (fun c => is_letter c = true) p ->
  Forall (fun c => is_letter c = true) m.
Proof.
  revert m. induction p as [|a p IH]; intros [|b m] H Hp; cbn in *; try discriminate; auto.
  apply andb_true_iff in H as [Hab H]. inversion Hp; subst.
  constructor; [rewrite <- (ci_eq_letter _ _ Hab); assumption | auto].
Qed.

Lemma ci_same_letters_rev p m :
  ci_same p m = true -> Forall (fun c => is_letter c = true) m ->
  Forall (fun c => is_letter c = true) p.
Proof.
  revert m. induction p as [|a p IH]; intros [|b m] H Hm; cbn in *; try discriminate; auto.
  apply andb_true_iff in H as [Hab H]. inversion Hm; subst.
  constructor; [rewrite (ci_eq_letter _ _ Hab); assumption | eauto].
Qed.

(** A prefix of [Kl ++ [":"]] shorter than the whole is a prefix of [Kl]. *)
Lemma key_prefix Kl q1 q2 :
  Forall (fun c => is_letter c = true) Kl -> Kl ++ [":"%char] = q1 ++ q2 -> q2 <> [] ->
  Forall (fun c => is_letter c = true) q1.
Proof.
  intros HK Heq Hq2. destruct (exists_last Hq2) as (q2' & c & ->).
  rewrite app_assoc in Heq. apply app_inj_tail in Heq as [HK' _].
  rewrite HK' in HK. apply Forall_app in HK. tauto.
Qed.

(** Two occurrences of [KEY:] (letters, then a colon) never overlap: no
    occurrence starts inside [pre] and ends inside or after an occurrence
    [m] that follows [pre]. *)
Lemma no_straddle Kl pre m rest p0 s :
  Forall (fun c => is_letter c = true) Kl ->
  ci_same (Kl ++ [":"%char]) m = true ->
  (forall p1 m' p2, pre = p1 ++ m' ++ p2 -> ci_same (Kl ++ [":"%char]) m' = false) ->
  pre = p0 ++ s -> s <> [] -> Regex.match_at (Kl ++ [":"%char]) (s ++ m ++ rest) = None.
Proof.
  intros HK Hm Hocc Hpre Hs.
  destruct (Regex.match_at _ (s ++ m ++ rest)) as [r|] eqn:E; [exfalso|reflexivity].
  destruct (match_at_some _ _ _ E) as (m'' & Hm'' & Hci).
  apply app_eq_app in Hm'' as [x [[Hsx Hr] | [Hmx Hr]]].
  - subst s. rewrite (Hocc p0 m'' x Hpre) in Hci. discriminate.
  - subst m''. destruct x as [|x0 x].
    + rewrite app_nil_r in Hci. rewrite (Hocc p0 s [] ltac:(rewrite app_nil_r; exact Hpre)) in Hci.
      discriminate.
    + destruct (ci_same_app _ _ _ Hci) as (p1 & p2 & Hp & H1 & H2).
      pose proof (ci_same_length _ _ Hci) as Hl1. pose proof (ci_same_length _ _ Hm) as Hl2.
      rewrite !length_app in Hl1, Hl2.
      assert (Hlt : List.length (x0 :: x) < List.length m).
      { destruct s; [contradiction|]. cbn [app List.length] in Hl1, Hl2 |- *.
        rewrite length_app in Hl1. cbn [List.length] in Hl1. lia. }
      apply app_eq_app in Hr as [z [[Hmz _] | [Hxz _]]].
      * assert (Hz : z <> []).
        { intros ->. rewrite app_nil_r in Hmz. subst m. lia. }
        rewrite Hmz in Hm. destruct (ci_same_app _ _ _ Hm) as (q1 & q2 & Hq & G1 & G2).
        assert (Hq2 : q2 <> []).
        { intros ->. apply ci_same_length in G2. destruct z; [contradiction | discriminate]. }
        pose proof (ci_same_letters _ _ G1 (key_prefix _ _ _ HK Hq Hq2)) as Hxl.
        pose proof (ci_same_letters_rev _ _ H2 Hxl) as Hp2.
        assert (Hp2ne : p2 <> []).
        { intros ->. apply ci_same_length in H2. discriminate. }
        destruct (exists_last Hp2ne) as (p2' & c & Hc). rewrite Hc, app_assoc in Hp.
        apply app_inj_tail in Hp as [_ <-]. rewrite Hc in Hp2.
        apply Forall_app in Hp2 as [_ Hcol]. apply Forall_inv in Hcol. discriminate.
      * rewrite Hxz, length_app in Hlt. lia.
Qed.
Lemma take_line_app t post :
  Forall (fun c => Str.is_line_terminator c = false) t ->
  (post = [] \/ exists c p, post = c :: p /\ Str.is_line_terminator c = true) ->
  Regex.take_line (t ++ post) = t.
Proof.
  intros Ht Hp. induction Ht as [|c t Hc Ht IH]; cbn.
  - destruct Hp as [-> | (c & p & -> & Hc)]; cbn; [reflexivity | now rewrite Hc].
  - rewrite Hc, IH. reflexivity.
Qed.

Lemma skip_ws_app line post :
  existsb (fun c => negb (Str.is_ws c)) line = true ->
  Str.skip_ws (line ++ post) = Str.skip_ws line ++ post.
Proof.
  induction line as [|c t IH]; cbn; [discriminate|].
  destruct (Str.is_ws c); cbn; auto.
Qed.

Lemma skip_ws_idem l : Str.skip_ws (Str.skip_ws l) = Str.skip_ws l.
Proof.
  induction l as [|c t IH]; cbn; [reflexivity|].
  destruct (Str.is_ws c) eqn:E; [exact IH | cbn; rewrite E; reflexivity].
Qed.

Lemma skip_ws_suffix l : exists p, l = p ++ Str.skip_ws l.
Proof.
  induction l as [|c t [p Hp]]; cbn; [exists []; reflexivity|].
  destruct (Str.is_ws c); [exists (c :: p); cbn; congruence | exists []; reflexivity].
Qed.

Lemma trim_l_skip l : Str.trim_l (Str.skip_ws l) = Str.trim_l l.
Proof. unfold Str.trim_l. rewrite skip_ws_idem. reflexivity. Qed.

Lemma skip_ws_all w l :
  Forall (fun c => Str.is_ws c = true) w -> Str.skip_ws (w ++ l) = Str.skip_ws l.
Proof. induction 1 as [|c t Hc _ IH]; cbn; [reflexivity | rewrite Hc; exact IH]. Qed.

Lemma parseField_extract K pre m w line post :
  Forall (fun c => is_letter c = true) (list_ascii_of_string K) ->
  ci_same (list_ascii_of_string K ++ [":"%char]) m = true ->
  (forall p1 m' p2, pre = p1 ++ m' ++ p2 ->
     ci_same (list_ascii_of_string K ++ [":"%char]) m' = false) ->
  Forall (fun c => Str.is_ws c = true) w ->
  Forall (fun c => Str.is_line_terminator c = false) line ->
  existsb (fun c => negb (Str.is_ws c)) line = true ->
  (post = [] \/ exists c p, post = c :: p /\ Str.is_line_terminator c = true) ->
  parseField K (string_of_list_ascii (pre ++ m ++ w ++ line ++ post))
  = Str.trim (string_of_list_ascii line).
Proof.
  intros HK Hm Hocc Hw Hline Hnw Hpost. unfold parseField.
  rewrite list_ascii_of_string_of_list_ascii.
  rewrite search_skip by (intros p0 s Hp Hs; eapply no_straddle; eauto).
  rewrite search_eq, match_at_app by exact Hm.
  rewrite skip_ws_all by exact Hw.
  rewrite skip_ws_app by exact Hnw.
  destruct (skip_ws_suffix line) as [p Hp].
  rewrite take_line_app; [| | exact Hpost].
  - unfold Str.trim. rewrite !list_ascii_of_string_of_list_ascii, trim_l_skip. reflexivity.
  - rewrite Hp in Hline. apply Forall_app in Hline. tauto.
Qed.

Lemma take_line_ws w r :
  Forall (fun c => Str.is_ws c = true) w -> existsb Str.is_line_terminator w = true ->
  Forall (fun c => Str.is_ws c = true) (Regex.take_line (w ++ r)).
Proof.
  induction 1 as [|c t Hc Ht IH]; cbn; [discriminate|].
  destruct (Str.is_line_terminator c); cbn; [constructor|]. intros H. constructor; auto.
Qed.

Lemma trim_l_all_ws l : Forall (fun c => Str.is_ws c = true) l -> Str.trim_l l = [].
Proof.
  intros H. unfold Str.trim_l. rewrite <- (app_nil_r l), skip_ws_all by exact H. reflexivity.
Qed.

Lemma existsb_skip_ws l :
  existsb (fun c => negb (Str.is_ws c)) l = true ->
  existsb (fun c => negb (Str.is_ws c)) (Str.skip_ws l) = true.
Proof.
  induction l as [|c t IH]; cbn; [discriminate|].
  destruct (Str.is_ws c) eqn:E; cbn; [exact IH | rewrite E; reflexivity].
Qed.

Lemma existsb_rev_iff {A} (f : A -> bool) l : existsb f (rev l) = existsb f l.
Proof.
  apply Bool.eq_true_iff_eq. rewrite !existsb_exists.
  split; intros (x & Hx & Hf); exists x; split; auto; [apply in_rev | rewrite <- in_rev]; auto.
Qed.

Lemma trim_nonempty line :
  existsb (fun c => negb (Str.is_ws c)) line = true ->
  Str.trim (string_of_list_ascii line) <> ""%string.
Proof.
  intros H. unfold Str.trim, Str.trim_l. rewrite list_ascii_of_string_of_list_ascii.
  apply existsb_skip_ws in H. rewrite <- existsb_rev_iff in H. apply existsb_skip_ws in H.
  rewrite <- existsb_rev_iff in H.
  destruct (rev (Str.skip_ws (rev (Str.skip_ws line)))); [discriminate | discriminate].
Qed.
Lemma crlf_CR t :
  crlf (CRc :: t) = match t with
                    | d :: t' => if Ascii.eqb d LFc then LFc :: crlf t' else CRc :: crlf t
                    | [] => [CRc]
                    end.
Proof. reflexivity. Qed.

Lemma crlf_other c t : Ascii.eqb c CRc = false -> crlf (c :: t) = c :: crlf t.
Proof. intros H. cbn -[CRc LFc Ascii.eqb]. rewrite H. reflexivity. Qed.

Lemma ci_eq_ctl p :
  Str.to_lower p <> CRc /\ Str.to_lower p <> LFc ->
  Regex.ci_eq p CRc = false /\ Regex.ci_eq p LFc = false.
Proof.
  intros [H1 H2]. unfold Regex.ci_eq.
  change (Str.to_lower CRc) with CRc. change (Str.to_lower LFc) with LFc.
  split; apply Ascii.eqb_neq; assumption.
Qed.

Lemma match_at_crlf pat l :
  Forall (fun p => Str.to_lower p <> CRc /\ Str.to_lower p <> LFc) pat ->
  Regex.match_at pat (crlf l) = option_map crlf (Regex.match_at pat l).
Proof.
  revert l. induction pat as [|p ps IH]; intros l Hpat; [reflexivity|].
  inversion Hpat as [|? ? Hp Hps]; subst.
  destruct (ci_eq_ctl p Hp) as [HCR HLF].
  destruct l as [|c t]; [reflexivity|].
  destruct (Ascii.eqb_spec c CRc) as [->|Hc].
  - cbn [Regex.match_at]. rewrite HCR. rewrite crlf_CR.
    destruct t as [|d t']; [cbn -[Regex.ci_eq CRc LFc]; rewrite HCR; reflexivity|].
    destruct (Ascii.eqb d LFc); cbn -[Regex.ci_eq CRc LFc crlf]; [rewrite HLF | rewrite HCR]; reflexivity.
  - rewrite crlf_other by (apply Ascii.eqb_neq; exact Hc). cbn [Regex.match_at].
    destruct (Regex.ci_eq p c); [apply IH, Hps | reflexivity].
Qed.

Lemma match_at_LF pat t :
  pat <> [] -> Forall (fun p => Str.to_lower p <> CRc /\ Str.to_lower p <> LFc) pat ->
  Regex.match_at pat (LFc :: t) = None.
Proof.
  intros Hne Hpat. destruct pat as [|p ps]; [contradiction|].
  inversion Hpat as [|? ? Hp _]; subst. destruct (ci_eq_ctl p Hp) as [_ HLF].
  cbn -[Regex.ci_eq LFc]. rewrite HLF. reflexivity.
Qed.

Lemma search_crlf pat l :
  pat <> [] -> Forall (fun p => Str.to_lower p <> CRc /\ Str.to_lower p <> LFc) pat ->
  Regex.search pat (crlf l) = option_map crlf (Regex.search pat l).
Proof.
  intros Hne Hpat. remember (List.length l) as n eqn:Hn. revert l Hn.
  induction n as [n IH] using lt_wf_ind. intros l Hn.
  destruct l as [|c t]; [destruct pat; [contradiction | reflexivity]|].
  rewrite (search_eq pat (crlf _)), (search_eq pat (c :: t)), match_at_crlf by exact Hpat.
  destruct (Regex.match_at pat (c :: t)) eqn:E; [reflexivity|]. cbn [option_map].
  destruct (Ascii.eqb_spec c CRc) as [->|Hc].
  - rewrite crlf_CR. destruct t as [|d t']; [destruct pat; [contradiction | reflexivity]|].
    destruct (Ascii.eqb_spec d LFc) as [->|Hd].
    + rewrite (search_eq pat (LFc :: t')), match_at_LF by assumption.
      apply (IH (List.length t')); [cbn in Hn; lia | reflexivity].
    + apply (IH (List.length (d :: t'))); [cbn in Hn |- *; lia | reflexivity].
  - rewrite crlf_other by (apply Ascii.eqb_neq; exact Hc).
    apply (IH (List.length t)); [cbn in Hn; lia | reflexivity].
Qed.

Lemma skip_ws_crlf r : Str.skip_ws (crlf r) = crlf (Str.skip_ws r).
Proof.
  remember (List.length r) as n eqn:Hn. revert r Hn.
  induction n as [n IH] using lt_wf_ind. intros r Hn.
  destruct r as [|c t]; [reflexivity|].
  destruct (Ascii.eqb_spec c CRc) as [->|Hc].
  - rewrite crlf_CR. change (Str.skip_ws (CRc :: t)) with (Str.skip_ws t).
    destruct t as [|d t']; [reflexivity|].
    destruct (Ascii.eqb_spec d LFc) as [->|Hd].
    + change (Str.skip_ws (LFc :: crlf t')) with (Str.skip_ws (crlf t')).
      change (Str.skip_ws (LFc :: t')) with (Str.skip_ws t').
      apply (IH (List.length t')); [cbn in Hn; lia | reflexivity].
    + change (Str.skip_ws (CRc :: crlf (d :: t'))) with (Str.skip_ws (crlf (d :: t'))).
      apply (IH (List.length (d :: t'))); [cbn in Hn |- *; lia | reflexivity].
  - rewrite crlf_other by (apply Ascii.eqb_neq; exact Hc). cbn [Str.skip_ws].
    destruct (Str.is_ws c).
    + apply (IH (List.length t)); [cbn in Hn; lia | reflexivity].
    + rewrite crlf_other by (apply Ascii.eqb_neq; exact Hc). reflexivity.
Qed.

Lemma take_line_crlf r : Regex.take_line (crlf r) = Regex.take_line r.
Proof.
  remember (List.length r) as n eqn:Hn. revert r Hn.
  induction n as [n IH] using lt_wf_ind. intros r Hn.
  destruct r as [|c t]; [reflexivity|].
  destruct (Ascii.eqb_spec c CRc) as [->|Hc].
  - rewrite crlf_CR. destruct t as [|d t']; [reflexivity|].
    destruct (Ascii.eqb d LFc); reflexivity.
  - rewrite crlf_other by (apply Ascii.eqb_neq; exact Hc). cbn [Regex.take_line].
    destruct (Str.is_line_terminator c); [reflexivity|].
    f_equal. apply (IH (List.length t)); [cbn in Hn; lia | reflexivity].
Qed.

Lemma key_pat_ok K :
  Forall (fun c => is_letter c = true) (list_ascii_of_string K) ->
  Forall (fun p => Str.to_lower p <> CRc /\ Str.to_lower p <> LFc)
         (list_ascii_of_string K ++ [":"%char]).
Proof.
  intros HK. apply Forall_app. split.
  - eapply Forall_impl; [|exact HK]. intros c Hc. apply letter_lower_not_ctl, Hc.
  - constructor; [split; vm_compute; discriminate | constructor].
Qed.

(** C4 (code bug): the value of a field is documented as the rest of the
    line of [KEY:], trimmed, but [\s*] also consumes line ends.  Take a
    letter key, its first occurrence [m] in the text (anywhere, also inside
    a word), then only whitespace [w] up to and including a line end, so
    that the key's line holds an empty value, then a next line [line]
    holding a non-whitespace character.  The rest of the key's line,
    trimmed, is [""], yet [parseField] returns the next line trimmed, which
    is not empty. *)
Theorem parseField_value_from_next_line K pre m w line post :
  Forall (fun c => is_letter c = true) (list_ascii_of_string K) ->
  ci_same (list_ascii_of_string K ++ [":"%char]) m = true ->
  (forall p1 m' p2, pre = p1 ++ m' ++ p2 ->
     ci_same (list_ascii_of_string K ++ [":"%char]) m' = false) ->
  Forall (fun c => Str.is_ws c = true) w ->
  existsb Str.is_line_terminator w = true ->
  Forall (fun c => Str.is_line_terminator c = false) line ->
  existsb (fun c => negb (Str.is_ws c)) line = true ->
  (post = [] \/ exists c p, post = c :: p /\ Str.is_line_terminator c = true) ->
  Str.trim (string_of_list_ascii (Regex.take_line (w ++ line ++ post))) = ""%string /\
  parseField K (string_of_list_ascii (pre ++ m ++ w ++ line ++ post))
  = Str.trim (string_of_list_ascii line) /\
  Str.trim (string_of_list_ascii line) <> ""%string.
Proof.
  intros HK Hm Hocc Hw Hlt Hline Hnw Hpost. split; [|split].
  - unfold Str.trim. rewrite list_ascii_of_string_of_list_ascii, trim_l_all_ws; [reflexivity|].
    apply take_line_ws; assumption.
  - apply parseField_extract; assumption.
  - apply trim_nonempty, Hnw.
Qed.

Lemma parseField_value_from_next_line_witness :
  Str.trim (string_of_list_ascii (Regex.take_line ([LFc] ++ list_ascii_of_string "Bob" ++ [])))
  = ""%string /\
  parseField "VOTE" (string_of_list_ascii ([] ++ list_ascii_of_string "VOTE:" ++ [LFc]
                       ++ list_ascii_of_string "Bob" ++ []))
  = Str.trim (string_of_list_ascii (list_ascii_of_string "Bob")) /\
  Str.trim (string_of_list_ascii (list_ascii_of_string "Bob")) <> ""%string.
Proof.
  apply (parseField_value_from_next_line "VOTE").
  - repeat constructor.
  - reflexivity.
  - intros p1 m' p2 H. symmetry in H. apply app_eq_nil in H as [-> H].
    apply app_eq_nil in H as [-> _]. reflexivity.
  - repeat constructor.
  - reflexivity.
  - repeat constructor.
  - reflexivity.
  - left. reflexivity.
Defined.

(** X23: for a key of ASCII letters, as every caller passes, [KEY:] is
    matched case-insensitively anywhere in the text (also inside a word):
    with no occurrence the result is [""]; when the first occurrence is
    followed by a line that holds a non-whitespace character before the
    next line end (or the end of the text), the result is that line
    trimmed, whatever whitespace surrounds the value; and replacing every
    CR LF by LF never changes the result. *)
Theorem parseField_spec K :
  Forall (fun c => is_letter c = true) (list_ascii_of_string K) ->
  (forall T,
     (forall p1 m p2, list_ascii_of_string T = p1 ++ m ++ p2 ->
        ci_same (list_ascii_of_string K ++ [":"%char]) m = false) ->
     parseField K T = ""%string) /\
  (forall pre m line post,
     ci_same (list_ascii_of_string K ++ [":"%char]) m = true ->
     (forall p1 m' p2, pre = p1 ++ m' ++ p2 ->
        ci_same (list_ascii_of_string K ++ [":"%char]) m' = false) ->
     Forall (fun c => Str.is_line_terminator c = false) line ->
     existsb (fun c => negb (Str.is_ws c)) line = true ->
     (post = [] \/ exists c p, post = c :: p /\ Str.is_line_terminator c = true) ->
     parseField K (string_of_list_ascii (pre ++ m ++ line ++ post))
     = Str.trim (string_of_list_ascii line)) /\
  (forall T, parseField K (crlfS T) = parseField K T).
Proof.
  intros HK. split; [|split].
  - intros T H. unfold parseField. rewrite search_none by exact H. reflexivity.
  - intros pre m line post Hm Hocc Hline Hnw Hpost.
    apply (parseField_extract K pre m [] line post); auto.
  - intros T. unfold parseField, crlfS. rewrite list_ascii_of_string_of_list_ascii.
    rewrite search_crlf; [| destruct (list_ascii_of_string K); discriminate | apply key_pat_ok, HK].
    destruct (Regex.search _ _); [|reflexivity]. cbn [option_map].
    rewrite skip_ws_crlf, take_line_crlf. reflexivity.
Qed.

(** A key inside a word: ["MYVOTE: Bob"] gives ["Bob"]. *)
Lemma parseField_spec_witness :
  parseField "VOTE" (string_of_list_ascii (list_ascii_of_string "MY" ++ list_ascii_of_string "VOTE:"
                       ++ list_ascii_of_string " Bob" ++ []))
  = Str.trim (string_of_list_ascii (list_ascii_of_string " Bob")).
Proof.
  apply (proj1 (proj2 (parseField_spec "VOTE" ltac:(repeat constructor)))).
  - reflexivity.
  - intros p1 m' p2 H. destruct (ci_same _ m') eqn:E; [exfalso | reflexivity].
    apply ci_same_length in E. apply (f_equal (@List.length _)) in H.
    rewrite !length_app in H. cbn in E, H. lia.
  - repeat constructor.
  - reflexivity.
  - left. reflexivity.
Defined.

(* ================================================================== *)
(** * Further properties of the code *)

(** ** Trimming and lower-casing *)

Lemma skip_ws_good l : good (Str.skip_ws l).
Proof.
  induction l as [|c t IH]; cbn; [exact I|].
  destruct (Str.is_ws c) eqn:E; [exact IH | exact E].
Qed.

Lemma good_skip_ws l : good l -> Str.skip_ws l = l.
Proof. destruct l as [|c t]; cbn; [reflexivity|]. intros ->. reflexivity. Qed.

Lemma trim_l_good l : good (Str.trim_l l) /\ good (rev (Str.trim_l l)).
Proof.
  unfold Str.trim_l. rewrite rev_involutive. split; [|apply skip_ws_good].
  destruct (skip_ws_suffix (rev (Str.skip_ws l))) as [p Hp].
  set (S2 := Str.skip_ws (rev (Str.skip_ws l))) in *.
  assert (H1 : Str.skip_ws l = rev S2 ++ rev p).
  { rewrite <- rev_app_distr, <- Hp, rev_involutive. reflexivity. }
  pose proof (skip_ws_good l) as Hg. rewrite H1 in Hg.
  destruct (rev S2) as [|c t]; cbn in *; [exact I | exact Hg].
Qed.

Lemma trim_l_idem l : Str.trim_l (Str.trim_l l) = Str.trim_l l.
Proof.
  destruct (trim_l_good l) as [G1 G2].
  unfold Str.trim_l at 1. rewrite (good_skip_ws _ G1), (good_skip_ws _ G2).
  apply rev_involutive.
Qed.

Lemma to_lower_idem c : Str.to_lower (Str.to_lower c) = Str.to_lower c.
Proof. destruct c as [[] [] [] [] [] [] [] []]; reflexivity. Qed.

Lemma is_ws_to_lower c : Str.is_ws (Str.to_lower c) = Str.is_ws c.
Proof. destruct c as [[] [] [] [] [] [] [] []]; reflexivity. Qed.

Lemma skip_ws_map_lower l : Str.skip_ws (map Str.to_lower l) = map Str.to_lower (Str.skip_ws l).
Proof.
  induction l as [|c t IH]; cbn; [reflexivity|].
  rewrite is_ws_to_lower. destruct (Str.is_ws c); [exact IH | reflexivity].
Qed.

Lemma trim_l_map_lower l : Str.trim_l (map Str.to_lower l) = map Str.to_lower (Str.trim_l l).
Proof.
  unfold Str.trim_l.
  rewrite skip_ws_map_lower, <- map_rev, skip_ws_map_lower, map_rev. reflexivity.
Qed.

Lemma skip_ws_Forall (P : ascii -> Prop) l : Forall P l -> Forall P (Str.skip_ws l).
Proof.
  intros H. destruct (skip_ws_suffix l) as [p Hp]. rewrite Hp in H.
  apply Forall_app in H. apply H.
Qed.

Lemma trim_l_Forall (P : ascii -> Prop) l : Forall P l -> Forall P (Str.trim_l l).
Proof.
  intros H. unfold Str.trim_l.
  apply Forall_rev, skip_ws_Forall, Forall_rev, skip_ws_Forall, H.
Qed.

Lemma take_line_no_lt l : Forall (fun c => Str.is_line_terminator c = false) (Regex.take_line l).
Proof.
  induction l as [|c t IH]; cbn; [constructor|].
  destruct (Str.is_line_terminator c) eqn:E; [constructor | constructor; assumption].
Qed.

(** X1: normalizing a name twice gives the same as normalizing it once. *)
Theorem normalizeName_idempotent s : normalizeName (normalizeName s) = normalizeName s.
Proof.
  unfold normalizeName, Str.toLowerCase, Str.trim.
  rewrite !list_ascii_of_string_of_list_ascii, trim_l_map_lower, trim_l_idem, map_map.
  f_equal. apply map_ext. apply to_lower_idem.
Qed.

(** X2: for a key of ASCII letters and every text, the value returned
    by parseField is already trimmed (trimming it again changes nothing)
    and holds no line terminator (CR or LF). *)
Theorem parseField_trimmed_one_line K T :
  Forall (fun c => is_letter c = true) (list_ascii_of_string K) ->
  Str.trim (parseField K T) = parseField K T /\
  Forall (fun c => Str.is_line_terminator c = false) (list_ascii_of_string (parseField K T)).
Proof.
  intros _. unfold parseField. destruct (Regex.search _ _) as [rest|]; [|split; [reflexivity | constructor]].
  unfold Str.trim. rewrite !list_ascii_of_string_of_list_ascii. split.
  - rewrite trim_l_idem. reflexivity.
  - apply trim_l_Forall, take_line_no_lt.
Qed.

Lemma match_at_lower p1 p2 l :
  map Str.to_lower p1 = map Str.to_lower p2 -> Regex.match_at p1 l = Regex.match_at p2 l.
Proof.
  revert p2 l. induction p1 as [|a p1 IH]; intros [|b p2] l H; cbn in H; try discriminate; [reflexivity|].
  injection H as Hab H. cbn. destruct l as [|c t]; [reflexivity|].
  unfold Regex.ci_eq. rewrite Hab. destruct (Ascii.eqb _ _); [apply IH, H | reflexivity].
Qed.

Lemma search_lower p1 p2 l :
  map Str.to_lower p1 = map Str.to_lower p2 -> Regex.search p1 l = Regex.search p2 l.
Proof.
  intros H. induction l as [|c t IH]; rewrite !(search_eq _ (_ :: _)) || rewrite !(search_eq _ []);
    rewrite (match_at_lower _ _ _ H); [reflexivity|].
  destruct (Regex.match_at p2 (c :: t)); [reflexivity | exact IH].
Qed.

(** X3: parseField reads its key case-insensitively: two keys of ASCII
    letters equal up to case give the same result on every text. *)
Theorem parseField_key_case K1 K2 T :
  Forall (fun c => is_letter c = true) (list_ascii_of_string K1) ->
  Forall (fun c => is_letter c = true) (list_ascii_of_string K2) ->
  map Str.to_lower (list_ascii_of_string K1) = map Str.to_lower (list_ascii_of_string K2) ->
  parseField K1 T = parseField K2 T.
Proof.
  intros _ _ H. unfold parseField. rewrite (search_lower _ (list_ascii_of_string K2 ++ [":"%char])).
  - reflexivity.
  - rewrite !map_app, H. reflexivity.
Qed.

(** ** Random helpers (src/utils/random.ts) *)

(** X4: [shuffle] returns a permutation of its input, whatever the random
    draws are (in range or not): no element is lost or duplicated. *)
Theorem shuffle_permutation {A} (r : nat -> nat) (arr : list A) :
  Permutation (shuffle r arr) arr.
Proof. apply shuffle_perm. Qed.

(** X5: with in-range draws, [safePickRandom] returns the fallback exactly
    on an empty array, and otherwise an element of the array. *)
Theorem safePickRandom_cases {T} (draw : nat -> nat) (arr : list T) (fb : option T) :
  (forall n, 0 < n -> draw n < n) ->
  (arr = [] /\ safePickRandom draw arr fb = fb) \/
  (arr <> [] /\ exists x, safePickRandom draw arr fb = Some x /\ In x arr).
Proof.
  intros Hd. destruct arr as [|a t]; [left; split; reflexivity|].
  right. split; [discriminate|].
  destruct (pickRandom_some draw (a :: t) Hd) as [x Hx]; [discriminate|].
  exists x. split; [exact Hx | eapply pickRandom_In; exact Hx].
Qed.

(** ** Target resolution *)

Lemma insert_key_sorted {A} (f : A -> nat) x l :
  StronglySorted (fun a b => f b <= f a) l ->
  StronglySorted (fun a b => f b <= f a)
    (insert_by (fun a b => Z.of_nat (f b) - Z.of_nat (f a))%Z x l).
Proof.
  induction l as [|y t IH]; simpl; intros Hs.
  - repeat constructor.
  - apply StronglySorted_inv in Hs as [Ht Hy].
    destruct (0 <? Z.of_nat (f y) - Z.of_nat (f x))%Z eqn:E.
    + apply Z.ltb_lt in E. constructor; [now apply IH|].
      apply (Permutation_Forall (Permutation_sym (insert_by_perm _ x t))).
      constructor; [lia | exact Hy].
    + apply Z.ltb_ge in E. constructor; [constructor; assumption|].
      constructor; [lia|].
      eapply Forall_impl; [|exact Hy]. intros a Ha. cbv beta in *. lia.
Qed.

Lemma sort_key_head {A} (f : A -> nat) l h t :
  sort_by (fun a b => Z.of_nat (f b) - Z.of_nat (f a))%Z l = h :: t ->
  In h l /\ forall c, In c l -> f c <= f h.
Proof.
  intros Hs.
  assert (Hsort : StronglySorted (fun a b => f b <= f a)
                    (sort_by (fun a b => Z.of_nat (f b) - Z.of_nat (f a))%Z l)).
  { clear Hs. induction l as [|x r IH]; simpl; [constructor|]. apply insert_key_sorted, IH. }
  pose proof (sort_by_perm (fun a b => Z.of_nat (f b) - Z.of_nat (f a))%Z l) as Hp.
  rewrite Hs in Hsort, Hp. apply StronglySorted_inv in Hsort as [_ Hh].
  split; [apply (Permutation_in _ Hp); left; reflexivity|].
  intros c Hc. apply (Permutation_in _ (Permutation_sym Hp)) in Hc as [<-|Hc]; [lia|].
  rewrite Forall_forall in Hh. apply Hh, Hc.
Qed.

(** X6: whatever the draws, [resolveTargetPlayer] never returns a player
    outside the list it was given. *)
Theorem resolveTargetPlayer_member draw P q s l p :
  resolveTargetPlayer draw P q s l = Some p -> In p P.
Proof. intros H. apply (resolve_spec draw P q s l p H). Qed.

(** X7: when no legal player has exactly the normalized query as
    normalized name but some legal player's normalized name contains, or
    is contained in, the query, [resolveTargetPlayer] returns one of these
    candidates, with a longest normalized name among them. *)
Theorem resolve_longest_candidate draw P q s l :
  find (fun p => String.eqb (normalizeName (name p)) (normalizeName q) && legalB s l p) P = None ->
  filter (substrB (normalizeName q)) (filter (legalB s l) P) <> [] ->
  exists p, resolveTargetPlayer draw P q s l = Some p /\
    In p (filter (substrB (normalizeName q)) (filter (legalB s l) P)) /\
    forall c, In c (filter (substrB (normalizeName q)) (filter (legalB s l) P)) ->
      String.length (normalizeName (name c)) <= String.length (normalizeName (name p)).
Proof.
  intros Hf Hne. unfold resolveTargetPlayer; cbv beta zeta.
  unfold legalB in Hf. rewrite Hf.
  change (filter (fun p => negb (isIllegal s l p)) P) with (filter (legalB s l) P).
  change (filter (fun p => negb (String.eqb (normalizeName (name p)) "") &&
                           negb (String.eqb (normalizeName q) "") &&
                           (Str.includes (normalizeName q) (normalizeName (name p)) ||
                            Str.includes (normalizeName (name p)) (normalizeName q)))
                 (filter (legalB s l) P))
    with (filter (substrB (normalizeName q)) (filter (legalB s l) P)).
  destruct (filter (substrB (normalizeName q)) (filter (legalB s l) P)) as [|c [|c2 cs]] eqn:Hc.
  - contradiction.
  - exists c. split; [reflexivity|]. split; [left; reflexivity|].
    intros x [<-|[]]. lia.
  - destruct (sort_by nameLenCmp (c :: c2 :: cs)) as [|h t] eqn:Es.
    + apply (f_equal (@List.length _)) in Es.
      rewrite (Permutation_length (sort_by_perm _ _)) in Es. discriminate.
    + exists h. split; [reflexivity|].
      apply (sort_key_head (fun p => String.length (normalizeName (name p)))) in Es.
      exact Es.
Qed.

(** ** The voting phase *)

Lemma mapSet_keys k v m x :
  In x (map fst (mapSet k v m)) <-> x = k \/ In x (map fst m).
Proof.
  induction m as [|[k' v'] t IH]; cbn; [intuition congruence|].
  destruct (String.eqb_spec k' k) as [->|Hne]; cbn; [intuition congruence|].
  rewrite IH. intuition congruence.
Qed.

Lemma mapSet_nodup k v m : NoDup (map fst m) -> NoDup (map fst (mapSet k v m)).
Proof.
  induction m as [|[k' v'] t IH]; cbn; intros Hnd; [repeat constructor; intros []|].
  apply NoDup_cons_iff in Hnd as [Hn Hnd].
  destruct (String.eqb_spec k' k) as [->|Hne]; cbn; constructor; auto.
  rewrite mapSet_keys. intros [H|H]; [congruence | contradiction].
Qed.

Lemma mapSet_sum k v m :
  list_sum (map snd (mapSet k v m)) + mapGet0 k m = list_sum (map snd m) + v.
Proof.
  unfold mapGet0. induction m as [|[k' v'] t IH]; cbn; [lia|].
  unfold list_sum in *. destruct (String.eqb k' k); cbn; lia.
Qed.

Lemma mapSet_pos k v m :
  0 < v -> Forall (fun e => 0 < snd e) m -> Forall (fun e => 0 < snd e) (mapSet k v m).
Proof.
  intros Hv. induction m as [|[k' v'] t IH]; cbn; intros Hm; [repeat constructor; exact Hv|].
  inversion Hm as [|? ? H1 H2]; subst.
  destruct (String.eqb k' k); constructor; auto.
Qed.

Lemma finalVote_player d players p raw v :
  finalVote d players p raw = Some v -> In v (map name players).
Proof.
  unfold finalVote. cbv zeta.
  destruct (find _ (filter _ players)) as [x|] eqn:Hf.
  - apply find_some in Hf as [Hx _]. apply filter_In in Hx as [Hx _].
    destruct (String.eqb (name x) "") eqn:E; cbn.
    + intros H. destruct (safePickRandom _ _ _) as [y|] eqn:Hs; [|discriminate].
      injection H as <-. apply in_map.
      apply safePickRandom_spec in Hs as [[_ Hy]|[_ Hy]].
      * apply filter_In in Hy. apply Hy.
      * apply (nth_error_In _ 0). exact Hy.
    + intros H. injection H as <-. apply in_map, Hx.
  - cbn. intros H. destruct (safePickRandom _ _ _) as [y|] eqn:Hs; [|discriminate].
    injection H as <-. apply in_map.
    apply safePickRandom_spec in Hs as [[_ Hy]|[_ Hy]].
    + apply filter_In in Hy. apply Hy.
    + apply (nth_error_In _ 0). exact Hy.
Qed.

Lemma finalVote_some d players p raw :
  (forall n, 0 < n -> d n < n) -> players <> [] -> exists v, finalVote d players p raw = Some v.
Proof.
  intros Hd Hne. unfold finalVote. cbv zeta.
  match goal with |- context [if negb (String.eqb ?n "") then _ else _] =>
    destruct (negb (String.eqb n "")); [eexists; reflexivity|] end.
  destruct (safePickRandom_some d (filter (fun x => negb (String.eqb (id x) (id p))) players)
              (nth_error players 0) Hd) as [y Hy].
  - right. destruct players; [contradiction | discriminate].
  - rewrite Hy. exists (name y). reflexivity.
Qed.

Lemma voting_loop_inv vc players ps votes out :
  voting_loop vc players ps votes = Some out ->
  NoDup (map fst votes) -> (forall k, In k (map fst votes) -> In k (map name players)) ->
  Forall (fun e => 0 < snd e) votes ->
  NoDup (map fst out) /\ (forall k, In k (map fst out) -> In k (map name players)) /\
  list_sum (map snd out) = list_sum (map snd votes) + List.length ps /\
  Forall (fun e => 0 < snd e) out.
Proof.
  revert votes. induction ps as [|p rest IH]; cbn; intros votes H Hnd Hk Hp.
  - injection H as <-. repeat split; auto; lia.
  - destruct (finalVote _ _ _ _) as [fv|] eqn:Hfv; [|discriminate].
    apply IH in H as (H1 & H2 & H3 & H4).
    + repeat split; auto. pose proof (mapSet_sum fv (S (mapGet0 fv votes)) votes). lia.
    + apply mapSet_nodup, Hnd.
    + intros k Hin. apply mapSet_keys in Hin as [->|Hin]; [|auto].
      eapply finalVote_player; exact Hfv.
    + apply mapSet_pos; [lia | exact Hp].
Qed.

Lemma voting_loop_some vc players ps votes :
  (forall vs n, 0 < n -> vdraw vc vs n < n) -> players <> [] ->
  exists out, voting_loop vc players ps votes = Some out.
Proof.
  intros Hd Hne. revert votes. induction ps as [|p rest IH]; intros votes; cbn; [eauto|].
  destruct (finalVote_some (vdraw vc votes) players p (vote vc votes p) (Hd votes) Hne) as [v Hv].
  rewrite Hv. apply IH.
Qed.

(** X8: a vote map built by [runVotingPhase] has distinct keys, each of
    them the name of a player, and its counts sum to the number of
    players: every player casts exactly one vote. *)
Theorem runVotingPhase_shape vc players votes :
  runVotingPhase vc players = Some votes ->
  NoDup (map fst votes) /\ (forall k, In k (map fst votes) -> In k (map name players)) /\
  list_sum (map snd votes) = List.length players /\ Forall (fun e => 0 < snd e) votes.
Proof.
  intros H. apply voting_loop_inv in H as (H1 & H2 & H3 & H4).
  - repeat split; auto.
  - constructor.
  - intros k [].
  - constructor.
Qed.

(** X9: with a non-empty player list and in-range draws, the voting phase
    and then [tallyVotes] both succeed (no [TypeError]), and an accused
    name, if any, is the name of a player. *)
Theorem runVotingPhase_tally vc players :
  (forall vs n, 0 < n -> vdraw vc vs n < n) -> players <> [] ->
  exists votes r, runVotingPhase vc players = Some votes /\ tallyVotes votes players = Some r /\
    (forall k, accusedName r = Some k -> In k (map name players)).
Proof.
  intros Hd Hne.
  destruct (voting_loop_some vc players players [] Hd Hne) as [votes Hv].
  pose proof Hv as Hv2.
  apply voting_loop_inv in Hv2 as (_ & Hk & Hs & _); [|constructor | intros k [] | constructor].
  exists votes. unfold tallyVotes.
  pose proof (sort_by_perm voteCmp votes) as Hp.
  destruct (sort_by voteCmp votes) as [|a t] eqn:Es.
  - apply Permutation_nil in Hp. subst votes. destruct players; [contradiction | discriminate].
  - cbv zeta. destruct (_ && _).
    + eexists. split; [exact Hv|]. split; [reflexivity|]. intros k Hk'. discriminate.
    + eexists. split; [exact Hv|]. split; [reflexivity|]. intros k Hk'. injection Hk' as <-.
      apply Hk, in_map. apply (Permutation_in _ Hp). left. reflexivity.
Qed.

(** X10: whenever another player (by id) exists, a voter's final vote
    goes to a player with an id different from the voter's, whatever the
    raw reply and the draws. *)
Theorem finalVote_not_self d players p raw v :
  finalVote d players p raw = Some v ->
  (exists x, In x players /\ id x <> id p) ->
  exists x, In x players /\ id x <> id p /\ name x = v.
Proof.
  intros H [z [Hz Hzp]]. revert H. unfold finalVote. cbv zeta.
  set (cands := filter (fun x => negb (String.eqb (id x) (id p))) players).
  assert (Hc : forall x, In x cands -> In x players /\ id x <> id p).
  { intros x Hx. apply filter_In in Hx as [Hx Hb]. split; [exact Hx|].
    apply negb_true_iff, String.eqb_neq in Hb. exact Hb. }
  assert (Hne : cands <> []).
  { intros E. assert (Hin : In z cands).
    { apply filter_In. split; [exact Hz|]. apply negb_true_iff, String.eqb_neq, Hzp. }
    rewrite E in Hin. contradiction. }
  destruct (find _ cands) as [x|] eqn:Hf.
  - apply find_some in Hf as [Hx _].
    destruct (String.eqb (name x) "") eqn:E; cbn.
    + destruct (safePickRandom _ _ _) as [y|] eqn:Hs; [|discriminate]. intros H; injection H as <-.
      exists y. apply safePickRandom_spec in Hs as [[_ Hs]|[E0 _]]; [|contradiction].
      apply Hc in Hs. tauto.
    + intros H; injection H as <-. exists x. apply Hc in Hx. tauto.
  - cbn. destruct (safePickRandom _ _ _) as [y|] eqn:Hs; [|discriminate]. intros H; injection H as <-.
    exists y. apply safePickRandom_spec in Hs as [[_ Hs]|[E0 _]]; [|contradiction].
      apply Hc in Hs. tauto.
Qed.

(** X11: in a one-player game the only player's vote goes to themself,
    whatever the reply and the draws. *)
Theorem runVotingPhase_single vc p : runVotingPhase vc [p] = Some [(name p, 1)].
Proof.
  unfold runVotingPhase. cbn [voting_loop]. unfold finalVote. cbv zeta.
  cbn [filter]. rewrite String.eqb_refl. cbn [negb find safePickRandom nth_error option_map].
  reflexivity.
Qed.

(** ** The legacy configuration *)

Lemma legacy_loop_ai ih m ps i a f :
  (0 < i \/ ih = false) ->
  legacy_loop ih m ps i a f = map (fun k => option_map (fun t => SlotAI t m) (providerAt ps k)) (seq a f).
Proof.
  revert i a. induction f as [|f IH]; intros i a Hi; [reflexivity|].
  cbn [legacy_loop seq map].
  replace (ih && Nat.eqb i 0) with false
    by (destruct Hi as [Hi| ->]; [destruct ih; [destruct i; [lia|reflexivity] | reflexivity] | reflexivity]).
  rewrite IH by lia. reflexivity.
Qed.

(** X12: [legacyConfigToSlots] applies the defaults (3 players, no
    human, memory mode, the default rotation) and yields an optional human
    slot first, followed by AI slots whose k-th (from 0) uses provider
    [providers[k % providers.length]]. *)
Theorem legacyConfigToSlots_closed c :
  let n := match cfgNumPlayers c with Some n => n | None => 3 end in
  let ih := match cfgIncludeHuman c with Some b => b | None => false end in
  let m := match cfgAgentMode c with Some m => m | None => memory_mode end in
  let ps := match cfgProviders c with Some ps => ps | None => DEFAULT_PROVIDER_ROTATION end in
  let h := ih && (0 <? n) in
  legacyConfigToSlots c =
    (if h then [Some SlotHuman] else []) ++
    map (fun k => option_map (fun t => SlotAI t m) (providerAt ps k)) (seq 0 (if h then n - 1 else n)).
Proof.
  cbv zeta. unfold legacyConfigToSlots; cbv zeta.
  destruct (match cfgNumPlayers c with Some n => n | None => 3 end) as [|n].
  - destruct (match cfgIncludeHuman c with Some b => b | None => false end); reflexivity.
  - destruct (match cfgIncludeHuman c with Some b => b | None => false end) eqn:Eh.
    + cbn [legacy_loop Nat.eqb andb Nat.ltb Nat.leb]. rewrite legacy_loop_ai by lia.
      cbn. rewrite Nat.sub_0_r. reflexivity.
    + cbn [andb app]. apply legacy_loop_ai. right; reflexivity.
Qed.

Lemma providerAt_some ps k : ps <> [] -> exists t, providerAt ps k = Some t /\ In t ps.
Proof.
  intros Hne. unfold providerAt. destruct ps as [|p0 r]; [contradiction|].
  destruct (nth_error (p0 :: r) (k mod List.length (p0 :: r))) as [t|] eqn:E.
  - exists t. split; [reflexivity|]. eapply nth_error_In; exact E.
  - apply nth_error_None in E. pose proof (Nat.mod_upper_bound k (List.length (p0 :: r))). cbn in *. lia.
Qed.

(** X13: unless [providers] is given as an empty array, every slot of
    [legacyConfigToSlots] is defined; there are [numPlayers] of them
    (3 by default), each AI slot uses a listed provider and the agent
    mode, and only the first slot can be human, which it is exactly when
    [includeHuman] is set. *)
Theorem legacy_slots_defined c :
  cfgProviders c <> Some [] ->
  exists slots, legacyConfigToSlots c = map Some slots /\
    List.length slots = match cfgNumPlayers c with Some n => n | None => 3 end /\
    (forall j s, nth_error slots j = Some s ->
       (s = SlotHuman /\ j = 0 /\ cfgIncludeHuman c = Some true) \/
       (exists t, s = SlotAI t (match cfgAgentMode c with Some m => m | None => memory_mode end) /\
          In t (match cfgProviders c with Some ps => ps | None => DEFAULT_PROVIDER_ROTATION end) /\
          (j = 0 -> cfgIncludeHuman c <> Some true))).
Proof.
  intros Hps. pose proof (legacyConfigToSlots_closed c) as Hc. cbv zeta in Hc.
  set (n := match cfgNumPlayers c with Some n => n | None => 3 end) in *.
  set (m := match cfgAgentMode c with Some m => m | None => memory_mode end) in *.
  set (ps := match cfgProviders c with Some ps => ps | None => DEFAULT_PROVIDER_ROTATION end) in *.
  assert (Hne : ps <> []) by (unfold ps; destruct (cfgProviders c); [congruence | discriminate]).
  set (ai := fun k => match providerAt ps k with Some t => SlotAI t m | None => SlotHuman end).
  assert (Hmap : forall l, map (fun k => option_map (fun t => SlotAI t m) (providerAt ps k)) l
                           = map Some (map ai l)).
  { intros l. rewrite map_map. apply map_ext. intros k. unfold ai.
    destruct (providerAt_some ps k Hne) as [t [-> _]]. reflexivity. }
  assert (Hai : forall l j s, nth_error (map ai l) j = Some s -> exists t, s = SlotAI t m /\ In t ps).
  { intros l j s Hj. apply nth_error_In, in_map_iff in Hj as [k [<- _]]. unfold ai.
    destruct (providerAt_some ps k Hne) as [t [-> Ht]]. eauto. }
  destruct (match cfgIncludeHuman c with Some b => b | None => false end && (0 <? n)) eqn:Eh.
  - apply andb_true_iff in Eh as [Eh Hn]. apply Nat.ltb_lt in Hn.
    exists (SlotHuman :: map ai (seq 0 (n - 1))). rewrite Hc, Hmap. split; [reflexivity|].
    split; [cbn; rewrite length_map, length_seq; lia|].
    intros [|j] s Hj; cbn in Hj.
    + injection Hj as <-. left. repeat split. destruct (cfgIncludeHuman c); congruence.
    + right. destruct (Hai _ _ _ Hj) as [t [-> Ht]]. exists t. repeat split; auto. discriminate.
  - exists (map ai (seq 0 n)). rewrite Hc, Hmap. split; [reflexivity|].
    split; [rewrite length_map, length_seq; reflexivity|].
    intros j s Hj. right. destruct (Hai _ _ _ Hj) as [t [-> Ht]]. exists t. repeat split; auto.
    intros -> Hi. rewrite Hi in Eh. cbn in Eh.
    destruct n; [|discriminate]. cbn in Hj. discriminate.
Qed.

(** X14: with [providers] given as an empty array, every AI slot has an
    undefined provider type ([providers[NaN]]). *)
Theorem legacy_empty_providers c :
  cfgProviders c = Some [] ->
  forall x, In x (legacyConfigToSlots c) -> x = Some SlotHuman \/ x = None.
Proof.
  intros Hps x Hx. pose proof (legacyConfigToSlots_closed c) as Hc. cbv zeta in Hc.
  rewrite Hc, Hps in Hx. apply in_app_or in Hx as [Hx|Hx].
  - destruct (_ && _); [destruct Hx as [<-|[]]; left; reflexivity | contradiction].
  - apply in_map_iff in Hx as [k [<- _]]. right. reflexivity.
Qed.

(** ** Player names and ids of the setup *)

Lemma str_app_nil_r (s : string) : (s ++ "")%string = s.
Proof. induction s as [|c s IH]; cbn; [reflexivity | now rewrite IH]. Qed.

Lemma str_app_assoc (a b c : string) : (a ++ (b ++ c))%string = ((a ++ b) ++ c)%string.
Proof. induction a as [|x a IH]; cbn; [reflexivity | now rewrite IH]. Qed.

Lemma str_app_cancel_l (a x y : string) : (a ++ x)%string = (a ++ y)%string -> x = y.
Proof. induction a as [|c a IH]; cbn; [auto | intros H; injection H as H; auto]. Qed.

Lemma list_ascii_app (a b : string) :
  list_ascii_of_string (a ++ b) = list_ascii_of_string a ++ list_ascii_of_string b.
Proof. induction a as [|c a IH]; cbn; [reflexivity | now rewrite IH]. Qed.

Lemma digits_acc f n acc : digits_aux f n acc = (digits_aux f n "" ++ acc)%string.
Proof.
  revert n acc. induction f as [|f IH]; intros n acc; cbn [digits_aux]; [reflexivity|].
  destruct (n <? 10); [reflexivity|].
  rewrite IH, (IH _ (String _ "")), <- str_app_assoc. reflexivity.
Qed.

Lemma digits_fuel f f' m acc : m < f -> m < f' -> digits_aux f m acc = digits_aux f' m acc.
Proof.
  revert f' m acc. induction f as [|f IH]; intros [|f'] m acc H1 H2; try lia.
  cbn [digits_aux]. destruct (Nat.ltb_spec m 10); [reflexivity|].
  assert (m / 10 < m) by (apply Nat.div_lt; lia). apply IH; lia.
Qed.

Lemma nat_to_string_step n :
  list_ascii_of_string (nat_to_string n) =
  if n <? 10 then [ascii_of_nat (48 + n mod 10)]
  else list_ascii_of_string (nat_to_string (n / 10)) ++ [ascii_of_nat (48 + n mod 10)].
Proof.
  unfold nat_to_string. cbn [digits_aux]. destruct (Nat.ltb_spec n 10); [reflexivity|].
  rewrite digits_acc, list_ascii_app.
  destruct n as [|n']; [lia|].
  rewrite (digits_fuel (S n') (S (S n' / 10)) (S n' / 10)); [reflexivity| |lia].
  apply Nat.div_lt; lia.
Qed.

Lemma digit_inj a b : a < 10 -> b < 10 ->
  ascii_of_nat (48 + a) = ascii_of_nat (48 + b) -> a = b.
Proof.
  intros Ha Hb H. apply (f_equal nat_of_ascii) in H.
  rewrite !nat_ascii_embedding in H by lia. lia.
Qed.

Lemma nat_to_string_ne n : list_ascii_of_string (nat_to_string n) <> [].
Proof.
  rewrite nat_to_string_step. destruct (n <? 10); [discriminate|].
  intros H. apply app_eq_nil in H as [_ H]. discriminate.
Qed.

Lemma nat_to_string_inj n m : nat_to_string n = nat_to_string m -> n = m.
Proof.
  revert m. induction n as [n IH] using lt_wf_ind. intros m H.
  apply (f_equal list_ascii_of_string) in H. rewrite (nat_to_string_step n), (nat_to_string_step m) in H.
  pose proof (Nat.mod_upper_bound n 10 ltac:(lia)) as Hn. pose proof (Nat.mod_upper_bound m 10 ltac:(lia)) as Hm.
  destruct (Nat.ltb_spec n 10), (Nat.ltb_spec m 10).
  - injection H as H. assert (E : n mod 10 = m mod 10) by (apply digit_inj; [lia | lia | exact H]).
    rewrite !Nat.mod_small in E by lia. exact E.
  - apply (f_equal (@List.length _)) in H. rewrite length_app in H. cbn [List.length] in H.
    pose proof (nat_to_string_ne (m / 10)). destruct (list_ascii_of_string (nat_to_string (m / 10)));
      [contradiction | cbn [List.length] in H; lia].
  - apply (f_equal (@List.length _)) in H. rewrite length_app in H. cbn [List.length] in H.
    pose proof (nat_to_string_ne (n / 10)). destruct (list_ascii_of_string (nat_to_string (n / 10)));
      [contradiction | cbn [List.length] in H; lia].
  - apply app_inj_tail in H as [Hpre Hd].
    assert (E : n mod 10 = m mod 10) by (apply digit_inj; [lia | lia | exact Hd]).
    assert (n / 10 = m / 10).
    { apply IH; [apply Nat.div_lt; lia|].
      rewrite <- (string_of_list_ascii_of_string (nat_to_string (n / 10))), Hpre.
      apply string_of_list_ascii_of_string. }
    rewrite (Nat.div_mod_eq n 10), (Nat.div_mod_eq m 10). lia.
Qed.

Lemma countProvider_cons s0 l t :
  countProvider (s0 :: l) t =
  match s0 with SlotAI t' _ => if ProviderType_eqb t t' then 1 else 0 | SlotHuman => 0 end
  + countProvider l t.
Proof. unfold countProvider. cbn. destruct s0 as [|t' m]; [reflexivity|]. destruct (ProviderType_eqb t t'); reflexivity. Qed.

Lemma build_length allSlots pack sp i slots rl inst :
  List.length (buildPlayers allSlots pack sp i slots rl inst) = List.length slots.
Proof.
  revert i rl inst. induction slots as [|slot rest IH]; intros i rl inst; [reflexivity|].
  cbn [buildPlayers]. destruct (match slot with SlotHuman => _ | SlotAI _ _ => _ end) as [nm inst'].
  destruct (Nat.eqb i sp); [|destruct (pop rl)]; cbn; rewrite IH; reflexivity.
Qed.

Lemma build_nth allSlots pack sp i slots rl inst j s :
  nth_error slots j = Some s ->
  exists p, nth_error (buildPlayers allSlots pack sp i slots rl inst) j = Some p /\
    id p = name p /\ isHuman p = isHumanSlot s /\
    name p = match s with
             | SlotHuman => "You"%string
             | SlotAI t _ =>
                 if 1 <? countProvider allSlots t
                 then (getProviderDisplayName t ++ "-"
                       ++ nat_to_string (S (inst t + countProvider (firstn j slots) t)))%string
                 else getProviderDisplayName t
             end.
Proof.
  revert i rl inst j. induction slots as [|slot rest IH]; intros i rl inst j Hj.
  - destruct j; discriminate.
  - cbn [buildPlayers].
    set (inst' := match slot with
                  | SlotHuman => inst
                  | SlotAI t _ => fun t' => if ProviderType_eqb t t' then S (inst t) else inst t'
                  end).
    set (nm := match slot with
               | SlotHuman => "You"%string
               | SlotAI t _ =>
                   if 1 <? countProvider allSlots t
                   then (getProviderDisplayName t ++ "-" ++ nat_to_string (S (inst t)))%string
                   else getProviderDisplayName t
               end).
    replace (match slot with SlotHuman => _ | SlotAI _ _ => _ end) with (nm, inst')
      by (destruct slot; reflexivity).
    cbv iota beta.
    destruct (if Nat.eqb i sp then _ else _) as [sec rl'].
    destruct j as [|j].
    + cbn in Hj. injection Hj as <-. eexists. split; [reflexivity|].
      cbn [id name isHuman]. split; [reflexivity|]. split; [destruct slot; reflexivity|].
      unfold nm. destruct slot as [|t m]; [reflexivity|]. cbn [firstn].
      change (countProvider [] t) with 0. rewrite (Nat.add_0_r (inst t)). reflexivity.
    + cbn in Hj. destruct (IH (S i) rl' inst' j Hj) as [p [Hp [Hid [Hh Hn]]]].
      exists p. split; [exact Hp|]. repeat split; [exact Hid | exact Hh|].
      rewrite Hn. destruct s as [|t m]; [reflexivity|].
      replace (inst t + countProvider (firstn (S j) (slot :: rest)) t)
        with (inst' t + countProvider (firstn j rest) t); [reflexivity|].
      cbn [firstn]. rewrite countProvider_cons. unfold inst'.
      destruct slot as [|t0 m0]; [reflexivity|].
      destruct t, t0; cbn; lia.
Qed.

(** X15: [setupPlayers] builds one player per slot, in slot order; each
    player's id is its name, it is human exactly for the human slot, and
    its name is "You" for the human, the provider's display name for a
    provider used once, and otherwise the display name, a dash and the
    provider's occurrence number, counted from 1 in slot order. *)
Theorem setupPlayers_names slots pack spyIndex r :
  List.length (setupPlayers slots pack spyIndex r) = List.length slots /\
  forall j s, nth_error slots j = Some s ->
    exists p, nth_error (setupPlayers slots pack spyIndex r) j = Some p /\
      id p = name p /\ isHuman p = isHumanSlot s /\ name p = slotName slots j s.
Proof.
  unfold setupPlayers. split; [apply build_length|].
  intros j s Hj. destruct (build_nth slots pack spyIndex 0 slots
    (slice_roles (shuffle r (roles pack)) (List.length slots)) (fun _ => 0) j s Hj)
    as [p [Hp [Hid [Hh Hn]]]].
  exists p. split; [exact Hp|]. split; [exact Hid|]. split; [exact Hh|]. rewrite Hn. destruct s; reflexivity.
Qed.

Lemma countProvider_app a b t : countProvider (a ++ b) t = countProvider a t + countProvider b t.
Proof. unfold countProvider. rewrite filter_app, length_app. reflexivity. Qed.

Lemma firstn_length_app {A} (l1 l2 : list A) : firstn (List.length l1) (l1 ++ l2) = l1.
Proof. induction l1 as [|x l1 IH]; cbn; [reflexivity | now rewrite IH]. Qed.

Lemma disp_prefix t t' x y :
  (getProviderDisplayName t ++ x)%string = (getProviderDisplayName t' ++ y)%string -> t = t'.
Proof. destruct t, t'; cbn; intros H; try reflexivity; discriminate H. Qed.

Lemma disp_not_you t x : (getProviderDisplayName t ++ x)%string <> "You"%string.
Proof. destruct t; cbn; discriminate. Qed.

Lemma slotName_as_app slots j t m :
  exists x, slotName slots j (SlotAI t m) = (getProviderDisplayName t ++ x)%string.
Proof.
  cbn [slotName]. destruct (1 <? countProvider slots t); [eexists; reflexivity|].
  exists ""%string. symmetry. apply str_app_nil_r.
Qed.

Lemma slotName_distinct slots i j si sj :
  i < j -> nth_error slots i = Some si -> nth_error slots j = Some sj ->
  List.length (filter isHumanSlot slots) <= 1 ->
  slotName slots i si <> slotName slots j sj.
Proof.
  intros Hij Hi Hj Hh.
  destruct (split_two slots i j si sj Hij Hi Hj) as (l1 & l2 & l3 & -> & <- & ->).
  destruct si as [|t m], sj as [|t' m'].
  - exfalso. rewrite filter_app in Hh. cbn in Hh. rewrite filter_app in Hh. cbn in Hh.
    rewrite length_app in Hh. cbn in Hh. rewrite length_app in Hh. cbn in Hh. lia.
  - destruct (slotName_as_app (l1 ++ SlotHuman :: l2 ++ SlotAI t' m' :: l3)
                (List.length l1 + S (List.length l2)) t' m') as [x ->].
    cbn [slotName]. intros H. symmetry in H. exact (disp_not_you _ _ H).
  - destruct (slotName_as_app (l1 ++ SlotAI t m :: l2 ++ SlotHuman :: l3) (List.length l1) t m)
      as [x ->].
    cbn [slotName]. exact (disp_not_you _ _).
  - intros H.
    destruct (slotName_as_app (l1 ++ SlotAI t m :: l2 ++ SlotAI t' m' :: l3) (List.length l1) t m)
      as [x Hx].
    destruct (slotName_as_app (l1 ++ SlotAI t m :: l2 ++ SlotAI t' m' :: l3)
                (List.length l1 + S (List.length l2)) t' m') as [y Hy].
    assert (t' = t) as ->.
    { rewrite Hx, Hy in H. symmetry. eapply disp_prefix; exact H. }
    clear Hx Hy. cbn [slotName] in H.
    assert (Hc : (1 <? countProvider (l1 ++ SlotAI t m :: l2 ++ SlotAI t m' :: l3) t) = true).
    { apply Nat.ltb_lt. rewrite countProvider_app, countProvider_cons, countProvider_app,
        countProvider_cons. destruct t; cbn; lia. }
    rewrite Hc in H.
    rewrite firstn_length_app in H.
    replace (l1 ++ SlotAI t m :: l2 ++ SlotAI t m' :: l3)
      with ((l1 ++ SlotAI t m :: l2) ++ SlotAI t m' :: l3) in H by (rewrite <- app_assoc; reflexivity).
    replace (List.length l1 + S (List.length l2)) with (List.length (l1 ++ SlotAI t m :: l2)) in H
      by (rewrite length_app; reflexivity).
    rewrite firstn_length_app in H.
    apply str_app_cancel_l, str_app_cancel_l, nat_to_string_inj in H.
    rewrite countProvider_app, countProvider_cons in H. destruct t; cbn in H; lia.
Qed.

Lemma build_isHuman allSlots pack sp i slots rl inst :
  map isHuman (buildPlayers allSlots pack sp i slots rl inst) = map isHumanSlot slots.
Proof.
  revert i rl inst. induction slots as [|slot rest IH]; intros i rl inst; [reflexivity|].
  cbn [buildPlayers]. destruct (match slot with SlotHuman => _ | SlotAI _ _ => _ end) as [nm inst'].
  destruct (Nat.eqb i sp); [|destruct (pop rl)]; cbn; rewrite IH; destruct slot; reflexivity.
Qed.

Lemma filter_length_map {A B} (f : A -> bool) (g : B -> bool) l l' :
  map f l = map g l' -> List.length (filter f l) = List.length (filter g l').
Proof.
  revert l'. induction l as [|x l IH]; intros [|y l'] H; cbn in H; try discriminate; [reflexivity|].
  injection H as Hxy H. cbn. rewrite Hxy. destruct (g y); cbn; rewrite (IH l' H); reflexivity.
Qed.

Lemma NoDup_map_filter {A B} (f : A -> B) (g : A -> bool) l :
  NoDup (map f l) -> NoDup (map f (filter g l)).
Proof.
  induction l as [|x l IH]; cbn; intros H; [constructor|].
  apply NoDup_cons_iff in H as [Hn H]. destruct (g x); cbn; [|auto].
  constructor; [|auto]. intros Hin. apply Hn.
  apply in_map_iff in Hin as [y [Hy Hin]]. rewrite <- Hy. apply in_map.
  apply filter_In in Hin. apply Hin.
Qed.

(** X16: the ids of the players built by [setupPlayers] are pairwise
    distinct exactly when at most one slot is human (two human slots give
    two players with the id "You", which clash as keys of the controller
    map). *)
Theorem setupPlayers_ids_distinct slots pack spyIndex r :
  NoDup (map id (setupPlayers slots pack spyIndex r)) <->
  List.length (filter isHumanSlot slots) <= 1.
Proof.
  destruct (setupPlayers_names slots pack spyIndex r) as [Hlen Hnm].
  set (P := setupPlayers slots pack spyIndex r) in *.
  split.
  - intros Hnd.
    assert (Hf : List.length (filter isHuman P) = List.length (filter isHumanSlot slots)).
    { apply filter_length_map. apply build_isHuman. }
    rewrite <- Hf.
    assert (Hyou : forall p, In p (filter isHuman P) -> id p = "You"%string).
    { intros p Hp. apply filter_In in Hp as [Hp Hh].
      apply In_nth_error in Hp as [j Hj].
      assert (Hjs : j < List.length slots) by (rewrite <- Hlen; apply nth_error_Some; congruence).
      destruct (nth_error slots j) as [s|] eqn:Es; [|apply nth_error_None in Es; lia].
      destruct (Hnm j s Es) as [p' [Hp' [Hid [Hh' Hn]]]].
      rewrite Hj in Hp'. injection Hp' as <-. rewrite Hid, Hn.
      destruct s; [reflexivity | rewrite Hh in Hh'; discriminate]. }
    apply (NoDup_map_filter id isHuman) in Hnd.
    destruct (filter isHuman P) as [|a [|b t]]; cbn; [lia | lia|].
    exfalso. cbn in Hnd. apply NoDup_cons_iff in Hnd as [Hn _]. apply Hn.
    rewrite (Hyou a), (Hyou b); cbn; auto.
  - intros Hh. apply NoDup_nth_error. rewrite length_map. intros i j Hi Hij.
    rewrite !nth_error_map in Hij.
    assert (Hsi : i < List.length slots) by lia.
    destruct (nth_error slots i) as [si|] eqn:Ei; [|apply nth_error_None in Ei; lia].
    destruct (Hnm i si Ei) as [pi [Hpi [Hidi [_ Hni]]]].
    rewrite Hpi in Hij. cbn in Hij.
    destruct (nth_error P j) as [pj|] eqn:Hpj; [|discriminate]. cbn in Hij. injection Hij as Hij.
    assert (Hsj : j < List.length slots) by (rewrite <- Hlen; apply nth_error_Some; congruence).
    destruct (nth_error slots j) as [sj|] eqn:Ej; [|apply nth_error_None in Ej; lia].
    destruct (Hnm j sj Ej) as [pj' [Hpj' [Hidj [_ Hnj]]]].
    rewrite Hpj in Hpj'. injection Hpj' as <-.
    rewrite Hidi, Hidj, Hni, Hnj in Hij.
    destruct (Nat.lt_trichotomy i j) as [Hlt|[Heq|Hgt]]; [exfalso | exact Heq | exfalso].
    + exact (slotName_distinct slots i j si sj Hlt Ei Ej Hh Hij).
    + exact (slotName_distinct slots j i sj si Hgt Ej Ei Hh (eq_sym Hij)).
Qed.

Lemma humans_at_head slots :
  (forall j, nth_error slots j = Some SlotHuman -> j = 0) ->
  List.length (filter isHumanSlot slots) <= 1.
Proof.
  destruct slots as [|s0 rest]; intros H; [cbn; lia|].
  assert (Hr : filter isHumanSlot rest = []).
  { destruct (filter isHumanSlot rest) as [|x t] eqn:E; [reflexivity|].
    exfalso. assert (Hx : In x (filter isHumanSlot rest)) by (rewrite E; left; reflexivity).
    apply filter_In in Hx as [Hx Hh]. apply In_nth_error in Hx as [j Hj].
    destruct x; [|discriminate]. specialize (H (S j) Hj). discriminate. }
  cbn. rewrite Hr. destruct (isHumanSlot s0); cbn; lia.
Qed.

Lemma map_Some_inj {A} (a b : list A) : map Some a = map Some b -> a = b.
Proof.
  revert b. induction a as [|x a IH]; intros [|y b] H; cbn in H; try discriminate; [reflexivity|].
  injection H as -> H. f_equal. auto.
Qed.

(** X17: a legacy configuration whose [providers] is absent or non-empty
    always leads to players with pairwise distinct ids, whatever the
    location pack, spy index and shuffle draws. *)
Theorem legacy_setup_ids_distinct c slots pack spyIndex r :
  cfgProviders c <> Some [] -> legacyConfigToSlots c = map Some slots ->
  NoDup (map id (setupPlayers slots pack spyIndex r)).
Proof.
  intros Hps Hl. destruct (legacy_slots_defined c Hps) as [slots' [Hl' [_ Hj]]].
  rewrite Hl' in Hl. apply map_Some_inj in Hl. subst slots'.
  apply setupPlayers_ids_distinct, humans_at_head.
  intros j Hn. destruct (Hj j SlotHuman Hn) as [(_ & -> & _)|[t [E _]]]; [reflexivity | discriminate].
Qed.

(** ** The agent's conversation memory *)

(** X18: in memory mode, a sequence of [say] calls only appends to the
    memory: each user message is kept, in order, even when the provider
    call rejects, and an assistant message follows exactly the calls that
    succeeded; the mode never changes. *)
Theorem sayAll_memory prov a us :
  agentMode a = memory_mode ->
  agentMode (snd (sayAll prov a us)) = memory_mode /\
  (exists ext, agentMemory (snd (sayAll prov a us)) = agentMemory a ++ ext) /\
  filter isUserMsg (agentMemory (snd (sayAll prov a us)))
    = filter isUserMsg (agentMemory a) ++ map (mkMsg RUser) us /\
  List.length (agentMemory (snd (sayAll prov a us)))
    = List.length (agentMemory a) + List.length us + List.length (filter isResolved (fst (sayAll prov a us))).
Proof.
  revert a. induction us as [|u r IH]; intros a Hm.
  - cbn. repeat split; auto; [exists []; symmetry; apply app_nil_r | rewrite app_nil_r; reflexivity | lia].
  - cbn [sayAll]. unfold say. rewrite Hm. unfold sayWithMemory.
    destruct (chat prov (agentMemory a ++ [mkMsg RUser u])) as [t|e].
    + destruct (IH (mkAgent (agentMode a) ((agentMemory a ++ [mkMsg RUser u]) ++ [mkMsg RAssistant t])
                  (agentReady a)) Hm) as (H1 & [ext Hext] & H3 & H4).
      destruct (sayAll prov _ r) as [rs a2]. cbn [fst snd agentMemory] in *.
      repeat split; [exact H1 | | |].
      * exists ([mkMsg RUser u; mkMsg RAssistant t] ++ ext). rewrite Hext, <- !app_assoc. reflexivity.
      * rewrite H3, !filter_app. cbn. rewrite <- !app_assoc. reflexivity.
      * rewrite H4, !length_app. cbn. lia.
    + destruct (IH (mkAgent (agentMode a) (agentMemory a ++ [mkMsg RUser u]) (agentReady a)) Hm)
        as (H1 & [ext Hext] & H3 & H4).
      destruct (sayAll prov _ r) as [rs a2]. cbn [fst snd agentMemory] in *.
      repeat split; [exact H1 | | |].
      * exists (mkMsg RUser u :: ext). rewrite Hext, <- app_assoc. reflexivity.
      * rewrite H3, !filter_app. cbn. rewrite <- !app_assoc. reflexivity.
      * rewrite H4, !length_app. cbn. lia.
Qed.

(** X19: in stateful mode, [say] never changes the agent; when the
    provider's [init] succeeded no call ever rejects (provider failures
    come back as answers), and when [init] rejected every call rejects with
    that same error. *)
Theorem sayAll_stateful prov a us :
  agentMode a = stateful_mode ->
  snd (sayAll prov a us) = a /\
  (agentReady a = Resolved tt -> Forall (fun r => isResolved r = true) (fst (sayAll prov a us))) /\
  (forall e, agentReady a = Rejected e -> fst (sayAll prov a us) = repeat (Rejected e) (List.length us)).
Proof.
  intros Hm. induction us as [|u r IH].
  - cbn. repeat split; auto.
  - destruct IH as (H1 & H2 & H3).
    cbn [sayAll]. unfold say. rewrite Hm. unfold sayStateful.
    destruct (agentReady a) as [[]|e0] eqn:Er.
    + assert (Hall : forall v, Forall (fun r => isResolved r = true) (Resolved v :: fst (sayAll prov a r)))
        by (intros v; constructor; [reflexivity | apply H2; reflexivity]).
      destruct (chatStateful prov u);
        destruct (sayAll prov a r) as [rs a2]; cbn [fst snd] in *;
        (split; [exact H1 | split; [intros _; apply Hall | intros e He; discriminate He]]).
    + destruct (sayAll prov a r) as [rs a2]; cbn [fst snd] in *.
      repeat split; [exact H1 | intros He; discriminate He |].
      intros e He. injection He as <-. cbn. f_equal. apply H3. reflexivity.
Qed.

(** X20: an agent created in memory mode, or in stateful mode on a
    provider without stateful support (the fallback), keeps the system
    prompt as the first message of its memory through any sequence of
    [say] calls. *)
Theorem newAgent_keeps_system_prompt prov sp md us :
  (md = memory_mode \/ supportsStateful prov = false) ->
  exists rest, agentMemory (snd (sayAll prov (newAgent prov sp md) us)) = mkMsg RSystem sp :: rest.
Proof.
  intros Hmd.
  assert (Hm : agentMode (newAgent prov sp md) = memory_mode /\
               agentMemory (newAgent prov sp md) = [mkMsg RSystem sp]).
  { unfold newAgent. destruct Hmd as [->|Hs]; [split; reflexivity|].
    destruct md; [split; reflexivity|]. rewrite Hs. split; reflexivity. }
  destruct Hm as [Hm Hmem].
  destruct (sayAll_memory prov (newAgent prov sp md) us Hm) as (_ & [ext Hext] & _).
  exists ext. rewrite Hext, Hmem. reflexivity.
Qed.

(** ** The question-round loop: transcript shape *)

Lemma questionStep_shape ctl players st a :
  match questionStep ctl players st a with
  | Continue st' =>
      roundCount st' = roundCount st /\
      exists target q ans d tn l,
        resolveTargetPlayer d players tn (id a) l = Some target /\
        turns st' = turns st ++ [mkTurn (name a) (name target) q ans] /\
        currentAsker st' = Some target
  | Throw st' => st' = st
  | Return _ _ _ => False
  end.
Proof.
  unfold questionStep. destruct (ask ctl st a) as [tn q].
  destruct (resolveTargetPlayer _ _ _ _ _) as [target|] eqn:Hr; [|reflexivity].
  cbn. split; [reflexivity|]. do 6 eexists. split; [exact Hr|]. split; reflexivity.
Qed.

Lemma iter_shape ctl players pack allow st :
  iterPost players st (iter ctl players pack allow st).
Proof.
  assert (Q : forall st0 a, turns st0 = turns st -> roundCount st0 = S (roundCount st) ->
                currentAsker st = Some a -> iterPost players st (questionStep ctl players st0 a)).
  { intros st0 a Ht Hr Ha. pose proof (questionStep_shape ctl players st0 a) as S0.
    destruct (questionStep ctl players st0 a) as [st'|ts e st'|st']; [| contradiction | subst; cbn; auto].
    destruct S0 as [Hr' (target & q & ans & d & tn & l & H1 & H2 & H3)].
    cbn. split; [congruence|]. exists a. split; [exact Ha|]. right.
    exists target, q, ans, d, tn, l. rewrite <- Ht. auto. }
  unfold iter. cbv zeta.
  set (st1 := set_roundCount st (S (roundCount st))).
  change (currentAsker st1) with (currentAsker st).
  destruct (currentAsker st) as [a|] eqn:Ha; [|split; reflexivity].
  destruct (List.length players <=? List.length (answered st1)); [|apply Q; reflexivity || exact Ha].
  set (cA := allow && negb (mem (id a) (usedVote st1))).
  set (act := chooseAction ctl st1 a cA).
  set (st2 := set_offers st1 (offers st1 ++ [(id a, cA, act)])).
  assert (Q2 : iterPost players st (questionStep ctl players st2 a)) by (apply Q; reflexivity || exact Ha).
  destruct (match act with AGuess => _ | _ => None end) as [[|w r]|];
    [| cbn; split; [reflexivity | split; reflexivity] |];
    (destruct (isVote act && cA); [|exact Q2]);
    (destruct (handleAccusation _ _ _ _ _) as [[|w' r']|];
     [ | cbn; split; [reflexivity | split; reflexivity] | cbn; split; reflexivity]);
    (cbn; split; [reflexivity|]; exists a; split; [exact Ha|]; left; split; [reflexivity|];
     intros x Hx; apply pickRandom_In, filter_In in Hx; apply Hx).
Qed.

Lemma loop_turns_bound ctl players pack allow numRounds fuel st :
  List.length (turns st) <= roundCount st -> roundCount st <= numRounds ->
  match loop ctl players pack allow numRounds fuel st with
  | Done ts _ st' => ts = turns st' /\ List.length ts <= numRounds
  | Crash st' => List.length (turns st') <= numRounds
  end.
Proof.
  revert st. induction fuel as [|f IH]; intros st H1 H2; cbn [loop]; [split; [reflexivity | lia]|].
  destruct (Nat.ltb_spec (roundCount st) numRounds) as [Hlt|Hge]; [|split; [reflexivity | lia]].
  pose proof (iter_shape ctl players pack allow st) as S0.
  destruct (iter ctl players pack allow st) as [st'|ts e st'|st']; cbn in S0.
  - apply IH.
    + destruct S0 as [Hr [a [_ [[Ht _]|(target & q & ans & d & tn & l & _ & Ht & _)]]]];
        rewrite Hr, Ht; [lia | rewrite length_app; cbn; lia].
    + lia.
  - destruct S0 as (-> & Ht & _). split; [reflexivity|]. rewrite Ht. lia.
  - destruct S0 as (Ht & _). rewrite Ht. lia.
Qed.

(** X21: for any controllers, player list and early-vote setting, the
    transcript returned by [runQuestionRounds] (or held when it throws)
    has at most [numRounds] turns. *)
Theorem runQuestionRounds_turns_bound ctl numRounds players pack allow :
  match runQuestionRounds ctl numRounds players pack allow with
  | Done ts _ st => ts = turns st /\ List.length ts <= numRounds
  | Crash st => List.length (turns st) <= numRounds
  end.
Proof.
  unfold runQuestionRounds. destruct (pickRandom _ players) as [first|]; [|cbn; lia].
  apply loop_turns_bound; cbn; lia.
Qed.

Section AskerTarget.
Variable players : list Player.
Hypothesis ids_nodup : NoDup (map id players).
Hypothesis two_players : 2 <= List.length players.

Lemma resolve_not_self d tn a l target :
  In a players -> resolveTargetPlayer d players tn (id a) l = Some target ->
  In target players /\ id target <> id a.
Proof.
  intros Ha Hr. apply resolve_spec in Hr as [Hin Hcase]. split; [exact Hin|].
  intros Heq.
  destruct Hcase as [Hl|[_ [Hn|[Hnil _]]]].
  - unfold legalB in Hl. rewrite isIllegal_self in Hl; [discriminate|].
    apply String.eqb_eq, Heq.
  - unfold notSelfB in Hn. rewrite Heq, String.eqb_refl in Hn. discriminate.
  - assert (Hall : forall x, In x players -> id x = id a).
    { intros x Hx. pose proof (filter_nil_false _ _ x Hnil Hx) as Hf. unfold notSelfB in Hf.
      apply negb_false_iff, String.eqb_eq in Hf. exact Hf. }
    pose proof (all_same_id players a ids_nodup Ha Hall) as E. rewrite E in two_players.
    cbn in two_players. lia.
Qed.

Lemma loop_turns_between ctl pack allow numRounds fuel st :
  (forall a, currentAsker st = Some a -> In a players) ->
  Forall (turnBetween players) (turns st) ->
  match loop ctl players pack allow numRounds fuel st with
  | Done ts _ st' => Forall (turnBetween players) ts
  | Crash st' => Forall (turnBetween players) (turns st')
  end.
Proof.
  revert st. induction fuel as [|f IH]; intros st H1 H2; cbn [loop]; [exact H2|].
  destruct (roundCount st <? numRounds); [|exact H2].
  pose proof (iter_shape ctl players pack allow st) as S0.
  destruct (iter ctl players pack allow st) as [st'|ts e st'|st']; cbn in S0.
  - destruct S0 as [_ [a [Ha [[Ht Hc]|(target & q & ans & d & tn & l & Hr & Ht & Hc)]]]].
    + apply IH; [exact Hc | rewrite Ht; exact H2].
    + destruct (resolve_not_self d tn a l target (H1 a Ha) Hr) as [Hin Hne].
      apply IH.
      * intros x Hx. rewrite Hc in Hx. injection Hx as <-. exact Hin.
      * rewrite Ht. apply Forall_app. split; [exact H2|]. constructor; [|constructor].
        exists a, target. repeat split; auto.
  - destruct S0 as (-> & Ht & _). rewrite Ht. exact H2.
  - destruct S0 as (Ht & _). rewrite Ht. exact H2.
Qed.

End AskerTarget.

(** X22: in a game of at least two players with distinct ids, every turn
    of the transcript is a question from one player to a different player
    (by id), whatever the controllers and draws. *)
Theorem runQuestionRounds_asker_not_target ctl numRounds players pack allow :
  NoDup (map id players) -> 2 <= List.length players ->
  match runQuestionRounds ctl numRounds players pack allow with
  | Done ts _ _ => Forall (turnBetween players) ts
  | Crash st => Forall (turnBetween players) (turns st)
  end.
Proof.
  intros Hnd H2. unfold runQuestionRounds.
  destruct (pickRandom _ players) as [first|] eqn:Hf; [|constructor].
  apply loop_turns_between; [exact Hnd | exact H2 | | constructor].
  intros a Ha. cbn in Ha. injection Ha as <-. eapply pickRandom_In; exact Hf.
Qed.

(* ------------------------------------------------------------------ *)
(** ** Instances of the properties above *)

Lemma parseField_key_case_witness :
  parseField "vote" "VOTE: Bob" = parseField "VOTE" "VOTE: Bob".
Proof. apply parseField_key_case; [repeat constructor | repeat constructor | reflexivity]. Defined.

Lemma parseField_trimmed_one_line_witness :
  Str.trim (parseField "VOTE" "VOTE:  Bob  ") = parseField "VOTE" "VOTE:  Bob  " /\
  Forall (fun c => Str.is_line_terminator c = false)
         (list_ascii_of_string (parseField "VOTE" "VOTE:  Bob  ")).
Proof. apply parseField_trimmed_one_line. repeat constructor. Defined.

Lemma safePickRandom_cases_witness :
  ([1; 2; 3] = [] /\ safePickRandom (fun n => n - 1) [1; 2; 3] None = None) \/
  ([1; 2; 3] <> [] /\ exists x, safePickRandom (fun n => n - 1) [1; 2; 3] None = Some x /\ In x [1; 2; 3]).
Proof. apply (safePickRandom_cases (fun n => n - 1) [1; 2; 3] None). intros n Hn. lia. Defined.

Lemma resolveTargetPlayer_member_witness : In (civ "B" "Bob") abc.
Proof.
  apply (resolveTargetPlayer_member (fun _ => 0) abc "bob" "A"%string None).
  vm_compute. reflexivity.
Defined.

Lemma resolve_longest_candidate_witness :
  exists p, resolveTargetPlayer (fun _ => 0) [civ "A" "Ann"; civ "B" "Annabel"; civ "C" "Carl"]
              "annabelle" "C"%string None = Some p /\
    In p (filter (substrB (normalizeName "annabelle"))
            (filter (legalB "C" None) [civ "A" "Ann"; civ "B" "Annabel"; civ "C" "Carl"])) /\
    forall c, In c (filter (substrB (normalizeName "annabelle"))
                     (filter (legalB "C" None) [civ "A" "Ann"; civ "B" "Annabel"; civ "C" "Carl"])) ->
      String.length (normalizeName (name c)) <= String.length (normalizeName (name p)).
Proof.
  apply resolve_longest_candidate; vm_compute; [reflexivity | discriminate].
Defined.

Lemma runVotingPhase_shape_witness :
  NoDup (map fst [("Bob"%string, 2); ("Alice"%string, 1)]) /\
  (forall k, In k (map fst [("Bob"%string, 2); ("Alice"%string, 1)]) -> In k (map name abc)) /\
  list_sum (map snd [("Bob"%string, 2); ("Alice"%string, 1)]) = List.length abc /\
  Forall (fun e => 0 < snd e) [("Bob"%string, 2); ("Alice"%string, 1)].
Proof. apply (runVotingPhase_shape bobVoter abc). vm_compute. reflexivity. Defined.

Lemma runVotingPhase_tally_witness :
  exists votes r, runVotingPhase bobVoter abc = Some votes /\ tallyVotes votes abc = Some r /\
    (forall k, accusedName r = Some k -> In k (map name abc)).
Proof.
  apply runVotingPhase_tally; [intros vs n Hn; exact Hn | discriminate].
Defined.

Lemma finalVote_not_self_witness :
  exists x, In x abc /\ id x <> id (civ "A" "Alice") /\ name x = "Bob"%string.
Proof.
  apply (finalVote_not_self (fun _ => 0) abc (civ "A" "Alice") "VOTE: alice").
  - vm_compute. reflexivity.
  - exists (civ "B" "Bob"). split; [right; left; reflexivity | discriminate].
Defined.

Lemma legacy_slots_defined_witness :
  exists slots, legacyConfigToSlots (mkConfig (Some 4) (Some true) None None) = map Some slots /\
    List.length slots = 4 /\
    (forall j s, nth_error slots j = Some s ->
       (s = SlotHuman /\ j = 0 /\ Some true = Some true) \/
       (exists t, s = SlotAI t memory_mode /\ In t DEFAULT_PROVIDER_ROTATION /\
          (j = 0 -> Some true <> Some true))).
Proof. apply (legacy_slots_defined (mkConfig (Some 4) (Some true) None None)). discriminate. Defined.

Lemma legacy_empty_providers_witness : None = Some SlotHuman \/ @None PlayerSlotConfig = None.
Proof.
  apply (legacy_empty_providers (mkConfig (Some 2) (Some false) None (Some [])) eq_refl None).
  vm_compute. left. reflexivity.
Defined.

Lemma legacy_setup_ids_distinct_witness :
  NoDup (map id (setupPlayers [SlotHuman; SlotAI openai memory_mode; SlotAI anthropic memory_mode;
                               SlotAI google memory_mode] casino 0 (fun _ => 0))).
Proof.
  apply (legacy_setup_ids_distinct (mkConfig (Some 4) (Some true) None None)); [discriminate | reflexivity].
Defined.

Lemma sayAll_memory_witness :
  let a := newAgent (failingProvider false) "sys" memory_mode in
  let res := sayAll (failingProvider false) a ["hi"; "again"]%string in
  agentMode (snd res) = memory_mode /\
  (exists ext, agentMemory (snd res) = agentMemory a ++ ext) /\
  filter isUserMsg (agentMemory (snd res))
    = filter isUserMsg (agentMemory a) ++ map (mkMsg RUser) ["hi"; "again"]%string /\
  List.length (agentMemory (snd res))
    = List.length (agentMemory a) + 2 + List.length (filter isResolved (fst res)).
Proof. cbv zeta. apply sayAll_memory. reflexivity. Defined.

Lemma sayAll_stateful_witness :
  let a := newAgent (failingProvider true) "sys" stateful_mode in
  snd (sayAll (failingProvider true) a ["hi"]%string) = a /\
  (agentReady a = Resolved tt ->
     Forall (fun r => isResolved r = true) (fst (sayAll (failingProvider true) a ["hi"]%string))) /\
  (forall e, agentReady a = Rejected e ->
     fst (sayAll (failingProvider true) a ["hi"]%string) = repeat (Rejected e) 1).
Proof. cbv zeta. apply sayAll_stateful. reflexivity. Defined.

Lemma newAgent_keeps_system_prompt_witness :
  exists rest, agentMemory (snd (sayAll (failingProvider false)
                 (newAgent (failingProvider false) "sys" stateful_mode) ["hi"]%string))
               = mkMsg RSystem "sys" :: rest.
Proof. apply newAgent_keeps_system_prompt. right. reflexivity. Defined.

Lemma runQuestionRounds_asker_not_target_witness :
  match runQuestionRounds simpleCtl 6 abc casino true with
  | Done ts _ _ => Forall (turnBetween abc) ts
  | Crash st => Forall (turnBetween abc) (turns st)
  end.
Proof.
  apply runQuestionRounds_asker_not_target.
  - vm_compute. repeat constructor; cbn; intuition discriminate.
  - cbn. lia.
Defined.
